(** * go-systemd, package dbus: job correlator and unit subscription poller

    A shallow embedding of [dbus/dbus.go].  The two stateful pieces of the
    package are modelled with explicit state passing:

    - the job correlator ([subscriberT], [initSubscriber], [startJob],
      [runJob]): the table [jobs] from job object paths to completion
      channels, the body of the listener goroutine and the enqueue path;
    - the subscription poller ([SubscribeUnitsCustom]): one iteration of the
      polling goroutine, with the retained snapshot [old] and the two output
      channels.

    Go channels are references to shared buffers, so the model keeps a store
    of channels indexed by an allocation counter; the table [jobs] holds
    channel references, not buffers.  The mutex [jobsLock] makes [startJob]
    and the handling of one signal atomic with respect to each other; each is
    one step of the model. *)

From stdpp Require Import gmap strings list fin_maps.

Open Scope string_scope.
Open Scope list_scope.

(** ** Data *)

(** [dbus.ObjectPath] is a Go string type; it is only used as a map key. *)
Abbreviation ObjectPath := string (only parsing).

(** Go's [error] values are opaque here. *)
Abbreviation Error := string (only parsing).

(** The elements of a signal body ([[]interface{}]) that [JobRemoved]
    carries: a [uint32], an object path and strings. *)
Inductive Variant :=
| VUint32 (n : N)
| VObjectPath (p : ObjectPath)
| VString (s : string).

(** [dbus.Signal], with the two fields that the listener reads. *)
Module Signal.
Record t := { Name : string; Body : list Variant }.
End Signal.

Definition signalBuffer : nat := 100.
Definition managerInterface : string := "org.freedesktop.systemd1.Manager".

(** The four variables declared at lines 69-72, as left by
    [dbus.Store(signal.Body, &id, &job, &unit, &result)]. *)
Module JobRemoved.
Record vars := {
  id : N;
  job : ObjectPath;
  unit : string;
  result : string
}.
End JobRemoved.

(** [dbus.Store] belongs to the go.dbus library: it copies the elements of
    the body into the destinations one after the other, and stops with an
    error at a length mismatch or at the first element whose type does not
    fit.  The listener drops that error, so what counts is what the
    variables hold afterwards: the stored prefix, and Go's zero values for
    the rest.  The theorems below only speak about the values of [job] and
    [result] after the call. *)
Definition Store (src : list Variant) : JobRemoved.vars :=
  match src with
  | [VUint32 i; VObjectPath j; VString u; VString r] =>
      {| JobRemoved.id := i; JobRemoved.job := j; JobRemoved.unit := u; JobRemoved.result := r |}
  | [VUint32 i; VObjectPath j; VString u; _] =>
      {| JobRemoved.id := i; JobRemoved.job := j; JobRemoved.unit := u; JobRemoved.result := "" |}
  | [VUint32 i; VObjectPath j; _; _] =>
      {| JobRemoved.id := i; JobRemoved.job := j; JobRemoved.unit := ""; JobRemoved.result := "" |}
  | [VUint32 i; _; _; _] =>
      {| JobRemoved.id := i; JobRemoved.job := ""; JobRemoved.unit := ""; JobRemoved.result := "" |}
  | _ => {| JobRemoved.id := 0%N; JobRemoved.job := ""; JobRemoved.unit := ""; JobRemoved.result := "" |}
  end.

(** A channel reference is its allocation number. *)
Abbreviation chanref := nat (only parsing).

(** A buffered Go channel: its capacity and the values waiting in it. *)
Record chanT := { cap : nat; buf : list string }.

Record subscriberT := { jobs : gmap ObjectPath chanref }.

(** The process state the correlator works on: the package variable
    [subscriber], the channels made so far, and the allocation counter. *)
Record World := {
  subscriber : subscriberT;
  chans : gmap chanref chanT;
  next_chan : chanref
}.

(** ** Channel operations *)

(** [make(chan string, n)]. *)
Definition make_chan (w : World) (n : nat) : chanref * World :=
  (next_chan w,
   {| subscriber := subscriber w;
      chans := <[next_chan w := {| cap := n; buf := [] |}]> (chans w);
      next_chan := S (next_chan w) |}).

(** [c <- v]: [None] when the send cannot complete in this state, which is
    the case for a full buffer (and for a reference to no channel, Go's nil
    channel). *)
Definition chan_send (w : World) (c : chanref) (v : string) : option World :=
  match chans w !! c with
  | Some ch =>
      if decide (length (buf ch) < cap ch) then
        Some {| subscriber := subscriber w;
                chans := <[c := {| cap := cap ch; buf := buf ch ++ [v] |}]> (chans w);
                next_chan := next_chan w |}
      else None
  | None => None
  end.

(** [<-c]: [None] when there is nothing to receive yet. *)
Definition chan_recv (w : World) (c : chanref) : option (string * World) :=
  match chans w !! c with
  | Some ch =>
      match buf ch with
      | v :: rest =>
          Some (v, {| subscriber := subscriber w;
                      chans := <[c := {| cap := cap ch; buf := rest |}]> (chans w);
                      next_chan := next_chan w |})
      | [] => None
      end
  | None => None
  end.

(** ** The job correlator *)

(** [initSubscriber]: [s.jobs = make(map[dbus.ObjectPath]chan string)]. *)
Definition initSubscriber : World :=
  {| subscriber := {| jobs := ∅ |}; chans := ∅; next_chan := 0 |}.

(** What one iteration of the listener loop (lines 63-80) does: it goes on
    to the next iteration in state [w] after the sends [sent], or it is
    stuck in the send to [c] while it holds [jobsLock]. *)
Inductive outcome :=
| Next (w : World) (sent : list (chanref * string))
| Blocked (c : chanref).

(** The body of the listener loop for the value [signal] read from the
    signal channel ([None] is a nil signal). *)
Definition listener (w : World) (signal : option Signal.t) : outcome :=
  match signal with
  | None => Next w []
  | Some sig =>
      if decide (Signal.Name sig = managerInterface +:+ ".JobRemoved") then
        let vars := Store (Signal.Body sig) in
        match jobs (subscriber w) !! JobRemoved.job vars with
        | Some out =>
            match chan_send w out (JobRemoved.result vars) with
            | Some w' => Next w' [(out, JobRemoved.result vars)]
            | None => Blocked out
            end
        | None => Next w []
        end
      else Next w []
  end.

(** The reply of [sysobj.Call(job, 0, args...).Store(&path)]: the transport
    is outside the package, its answer is an input of the model. *)
Inductive CallResult :=
| CallOk (path : ObjectPath)
| CallErr (err : Error).

(** [startJob]: returns the new state and the pair [(<-chan string, error)],
    where [None] is nil. *)
Definition startJob (w : World) (reply : CallResult)
  : World * (option chanref * option Error) :=
  let '(ch, w1) := make_chan w 1 in
  match reply with
  | CallErr err => (w1, (None, Some err))
  | CallOk path =>
      ({| subscriber := {| jobs := <[path := ch]> (jobs (subscriber w1)) |};
          chans := chans w1;
          next_chan := next_chan w1 |},
       (Some ch, None))
  end.

(** ** Executions *)

(** The atomic steps of the correlator: a call of [startJob] with the
    transport's reply, the listener handling one signal, and a waiter
    receiving from its channel ([<-respCh] in [runJob]). *)
Inductive action :=
| ActStartJob (reply : CallResult)
| ActSignal (signal : option Signal.t)
| ActRecv (c : chanref).

(** One step; [None] when the step cannot complete in this state. *)
Definition step (w : World) (a : action)
  : option (World * list (chanref * string)) :=
  match a with
  | ActStartJob reply => Some ((startJob w reply).1, [])
  | ActSignal signal =>
      match listener w signal with
      | Next w' sent => Some (w', sent)
      | Blocked _ => None
      end
  | ActRecv c =>
      match chan_recv w c with
      | Some (_, w') => Some (w', [])
      | None => None
      end
  end.

(** A schedule of steps, with all the sends the listener made. *)
Fixpoint run (w : World) (acts : list action)
  : option (World * list (chanref * string)) :=
  match acts with
  | [] => Some (w, [])
  | a :: rest =>
      match step w a with
      | Some (w1, t1) =>
          match run w1 rest with
          | Some (w2, t2) => Some (w2, t1 ++ t2)
          | None => None
          end
      | None => None
      end
  end.

Definition reachable (w : World) : Prop :=
  ∃ acts sent, run initSubscriber acts = Some (w, sent).

(** The values sent to channel [c]. *)
Definition sent_to (c : chanref) (sent : list (chanref * string)) : list string :=
  (filter (λ e, e.1 = c) sent).*2.

(** [runJob] as a schedule: enqueue, then wait for the result. *)
Definition runJob (w : World) (reply : CallResult) (between : list action)
  : option (string * option Error) :=
  match startJob w reply with
  | (_, (_, Some err)) => Some ("", Some err)
  | (w1, (Some respCh, None)) =>
      match run w1 between with
      | Some (w2, _) =>
          match chan_recv w2 respCh with
          | Some (v, _) => Some (v, None)
          | None => None
          end
      | None => None
      end
  | (_, (None, None)) => None
  end.

(** The job paths that the [JobRemoved] signals of a schedule carry. *)
Definition removed_path (a : action) : option ObjectPath :=
  match a with
  | ActSignal (Some sig) =>
      if decide (Signal.Name sig = managerInterface +:+ ".JobRemoved")
      then Some (JobRemoved.job (Store (Signal.Body sig)))
      else None
  | _ => None
  end.

Global Arguments removed_path : simpl never.

Definition removed_paths (acts : list action) : list ObjectPath :=
  omap removed_path acts.

(** ** Well-formed states *)

(** What holds of the table and the channel store in every state the
    package can be in: the table only holds channels made earlier, no channel
    is registered under two paths, and the store holds exactly the channels
    made so far. *)
Record wf (w : World) : Prop := {
  wf_jobs_lt : ∀ p c, jobs (subscriber w) !! p = Some c → c < next_chan w;
  wf_jobs_inj : ∀ p1 p2 c,
      jobs (subscriber w) !! p1 = Some c →
      jobs (subscriber w) !! p2 = Some c → p1 = p2;
  wf_chans_lt : ∀ c ch, chans w !! c = Some ch → c < next_chan w
}.


(** ** The subscription poller *)

Record UnitStatus := {
  Name : string;
  Description : string;
  LoadState : string;
  ActiveState : string;
  SubState : string;
  Followed : string;
  Path : ObjectPath;
  JobId : N;
  JobType : string;
  JobPath : ObjectPath
}.

Global Instance UnitStatus_eq_dec : EqDecision UnitStatus.
Proof. solve_decision. Defined.

(* The maps of the poller hold [*UnitStatus]: pointers into the slice that
    one call of [ListUnits] returned.  The poller never writes through them,
    so a map is modelled by the records its pointers lead to; in the map
    [changed] the nil pointer is [None]. *)

(** The comparison that [SubscribeUnits] passes (line 227):
    [*u1 != *u2]. *)
Definition SubscribeUnits_isChanged (u1 u2 : UnitStatus) : bool :=
  bool_decide (u1 ≠ u2).

(** The state of one polling goroutine: the variable [old], and the values
    it has sent on [statusChan] and on [errChan], oldest first.  A send
    completes once the consumer makes room for it; the iteration goes on
    after that. *)
Record Poller := {
  old : gmap string UnitStatus;
  statusChan : list (gmap string (option UnitStatus));
  errChan : list Error
}.

(** Lines 233-235: the state the goroutine starts in. *)
Definition SubscribeUnitsCustom : Poller :=
  {| old := ∅; statusChan := []; errChan := [] |}.

(** Lines 243-246: [cur[units[i].Name] = &units[i]] for [i] upwards. *)
Definition make_cur (units : list UnitStatus) : gmap string UnitStatus :=
  fold_left (λ cur u, <[Name u := u]> cur) units ∅.

(** The condition of line 251: [!ok || isChanged(oldU, u)]. *)
Definition new_or_changed (isChanged : UnitStatus → UnitStatus → bool)
    (old : gmap string UnitStatus) (n : string) (u : UnitStatus) : bool :=
  match old !! n with
  | Some oldU => isChanged oldU u
  | None => true
  end.

(** Lines 250-255, [for n, u := range cur], visiting the entries of [cur]
    in the order [order] (Go leaves the order open). *)
Definition range_cur (isChanged : UnitStatus → UnitStatus → bool)
    (order : list (string * UnitStatus))
    (old : gmap string UnitStatus) (changed : gmap string (option UnitStatus))
  : gmap string UnitStatus * gmap string (option UnitStatus) :=
  fold_left
    (λ st nu,
       (delete nu.1 st.1,
        if new_or_changed isChanged st.1 nu.1 nu.2
        then <[nu.1 := Some nu.2]> st.2 else st.2))
    order (old, changed).

(** Lines 258-260, [for oldN := range old]. *)
Definition range_old (order : list string)
    (changed : gmap string (option UnitStatus))
  : gmap string (option UnitStatus) :=
  fold_left (λ changed oldN, <[oldN := None]> changed) order changed.

(** Lines 249-260 for given visiting orders. *)
Definition changed_in (isChanged : UnitStatus → UnitStatus → bool)
    (order_cur : list (string * UnitStatus)) (order_old : list string)
    (old : gmap string UnitStatus) : gmap string (option UnitStatus) :=
  range_old order_old (range_cur isChanged order_cur old ∅).2.

(** Lines 249-260: the map [changed] that one cycle computes from [old] and
    [cur]. *)
Definition changed_units (isChanged : UnitStatus → UnitStatus → bool)
    (old cur : gmap string UnitStatus) : gmap string (option UnitStatus) :=
  let st := range_cur isChanged (map_to_list cur) old ∅ in
  range_old (map_to_list st.1).*1 st.2.

(** Lines 241-267: one iteration of the polling loop, for the result
    [fetched] of its call of [ListUnits]: the units, or the error.  The
    timer of lines 239 and 269 only paces the loop. *)
Definition poll_cycle (isChanged : UnitStatus → UnitStatus → bool)
    (fetched : list UnitStatus + Error) (st : Poller) : Poller :=
  match fetched with
  | inl units =>
      let cur := make_cur units in
      let changed := changed_units isChanged (old st) cur in
      {| old := cur;
         statusChan := statusChan st ++ [changed];
         errChan := errChan st |}
  | inr err =>
      {| old := old st;
         statusChan := statusChan st;
         errChan := errChan st ++ [err] |}
  end.

(** Consecutive iterations. *)
Definition poll (isChanged : UnitStatus → UnitStatus → bool)
    (fetches : list (list UnitStatus + Error)) (st : Poller) : Poller :=
  fold_left (λ st fetched, poll_cycle isChanged fetched st) fetches st.

(** What the specification asks of the map [changed], name by name:
    a new or changed unit maps to its current record, a unit that is gone
    maps to nil, and a unit that did not change has no entry. *)
Definition delta_entry (equal : UnitStatus → UnitStatus → bool)
    (previous current : gmap string UnitStatus) (n : string)
  : option (option UnitStatus) :=
  match current !! n, previous !! n with
  | Some u, None => Some (Some u)
  | Some u, Some oldU => if equal oldU u then None else Some (Some u)
  | None, Some _ => Some None
  | None, None => None
  end.

(** ** Sample values *)

(** A well-formed [JobRemoved] signal as systemd sends it. *)
Definition jobRemoved (i : N) (path : ObjectPath) (u r : string) : Signal.t :=
  {| Signal.Name := "org.freedesktop.systemd1.Manager.JobRemoved";
     Signal.Body := [VUint32 i; VObjectPath path; VString u; VString r] |}.

Definition job1 : ObjectPath := "/org/freedesktop/systemd1/job/1".
Definition job2 : ObjectPath := "/org/freedesktop/systemd1/job/2".

(** The state after two operations were enqueued under [job1] and
    [job2]. *)
Definition two_jobs : World :=
  (startJob (startJob initSubscriber (CallOk job1)).1 (CallOk job2)).1.

(** The state after one operation was enqueued under [job1]. *)
Definition one_job : World := (startJob initSubscriber (CallOk job1)).1.

Definition unitA1 : UnitStatus :=
  {| Name := "a.service"; Description := "A"; LoadState := "loaded";
     ActiveState := "active"; SubState := "running"; Followed := "";
     Path := "/org/freedesktop/systemd1/unit/a_2eservice";
     JobId := 0; JobType := ""; JobPath := "/" |}.

Definition unitA2 : UnitStatus :=
  {| Name := "a.service"; Description := "A"; LoadState := "loaded";
     ActiveState := "inactive"; SubState := "dead"; Followed := "";
     Path := "/org/freedesktop/systemd1/unit/a_2eservice";
     JobId := 0; JobType := ""; JobPath := "/" |}.

Definition unitB : UnitStatus :=
  {| Name := "b.service"; Description := "B"; LoadState := "loaded";
     ActiveState := "active"; SubState := "running"; Followed := "";
     Path := "/org/freedesktop/systemd1/unit/b_2eservice";
     JobId := 0; JobType := ""; JobPath := "/" |}.

Definition unitC : UnitStatus :=
  {| Name := "c.service"; Description := "C"; LoadState := "loaded";
     ActiveState := "active"; SubState := "running"; Followed := "";
     Path := "/org/freedesktop/systemd1/unit/c_2eservice";
     JobId := 0; JobType := ""; JobPath := "/" |}.

Definition job1_done : Signal.t := jobRemoved 1 job1 "a.service" "done".
Definition job2_done : Signal.t := jobRemoved 2 job2 "b.service" "done".

(** A signal of the manager that is not [JobRemoved]. *)
Definition unitNew : Signal.t :=
  {| Signal.Name := "org.freedesktop.systemd1.Manager.UnitNew";
     Signal.Body :=
       [VString "a.service";
        VObjectPath "/org/freedesktop/systemd1/unit/a_2eservice"] |}.

(** [one_job] and [two_jobs] after the listener handled [job1_done]. *)
Definition one_job_done : World :=
  {| subscriber := subscriber one_job;
     chans := <[0 := {| cap := 1; buf := ["done"] |}]> (chans one_job);
     next_chan := 1 |}.

Definition two_jobs_done : World :=
  {| subscriber := subscriber two_jobs;
     chans := <[0 := {| cap := 1; buf := ["done"] |}]> (chans two_jobs);
     next_chan := 2 |}.

(** ** Invariants of executions *)

(** The state of an execution in which every job path in [seen] has been
    reported removed, and none of them twice: a channel registered under a
    path not yet reported has received nothing, no channel has received more
    than one value, every channel has capacity one and holds no more than it
    has received, and the channels not yet made have received nothing. *)
Record once (w : World) (sent : list (chanref * string))
    (seen : list ObjectPath) : Prop := {
  once_wf : wf w;
  once_fresh : ∀ p c,
      jobs (subscriber w) !! p = Some c → p ∉ seen → sent_to c sent = [];
  once_le : ∀ c, (length (sent_to c sent) ≤ 1)%nat;
  once_buf : ∀ c ch,
      chans w !! c = Some ch →
      cap ch = 1 ∧ (length (buf ch) ≤ length (sent_to c sent))%nat;
  once_new : ∀ c, (next_chan w ≤ c)%nat → sent_to c sent = [];
  once_chans : ∀ c, c < next_chan w → is_Some (chans w !! c)
}.

(** A channel that was made earlier and is registered under no path. *)
Definition unregistered (c : chanref) (w : World) : Prop :=
  c < next_chan w ∧ ∀ p, jobs (subscriber w) !! p ≠ Some c.

(** ** Further definitions: executions of the correlator *)

(** The replies that the calls of [startJob] in a schedule got, in order:
    the [n]-th call makes channel [n]. *)
Definition startJob_reply (a : action) : option CallResult :=
  match a with
  | ActStartJob reply => Some reply
  | _ => None
  end.

Definition startJob_replies (acts : list action) : list CallResult :=
  omap startJob_reply acts.

(** The job path and the result of each [JobRemoved] signal of a
    schedule. *)
Definition removed_result (a : action) : option (ObjectPath * string) :=
  match a with
  | ActSignal (Some sig) =>
      if decide (Signal.Name sig = managerInterface +:+ ".JobRemoved")
      then Some (JobRemoved.job (Store (Signal.Body sig)),
                 JobRemoved.result (Store (Signal.Body sig)))
      else None
  | _ => None
  end.

Definition removed_results (acts : list action) : list (ObjectPath * string) :=
  omap removed_result acts.

(** What every state of an execution satisfies about the channel store:
    the channels made so far are all there, each has capacity one and holds
    at most one value. *)
Record chans_ok (w : World) : Prop := {
  chans_ok_made : ∀ c, c < next_chan w → is_Some (chans w !! c);
  chans_ok_cap : ∀ c ch, chans w !! c = Some ch →
                         cap ch = 1 ∧ (length (buf ch) ≤ 1)%nat
}.

(** What links a state to the schedule that led to it: channels are
    numbered by the calls of [startJob], a path is registered with the
    channel of a call that got this path as reply, and each value sent to a
    channel is the result of a [JobRemoved] signal for the path of that
    call. *)
Record traced (acts : list action) (w : World)
    (sent : list (chanref * string)) : Prop := {
  traced_next : next_chan w = length (startJob_replies acts);
  traced_jobs : ∀ p c, jobs (subscriber w) !! p = Some c →
                       startJob_replies acts !! c = Some (CallOk p);
  traced_sent : ∀ c v, (c, v) ∈ sent →
                       ∃ p, startJob_replies acts !! c = Some (CallOk p) ∧
                            (p, v) ∈ removed_results acts
}.

(** A step that leaves the waiter of channel [c], registered under [p],
    alone: it does not register [p] again, it is no [JobRemoved] signal for
    [p], and it does not receive from [c]. *)
Definition quiet (p : ObjectPath) (c : chanref) (a : action) : Prop :=
  a ≠ ActStartJob (CallOk p) ∧ removed_path a ≠ Some p ∧ a ≠ ActRecv c.

(** The state in which the waiter of [c] waits: [c] is registered under
    [p], under no other path, and holds [b]. *)
Record waiting (p : ObjectPath) (c : chanref) (b : list string)
    (w : World) : Prop := {
  waiting_wf : wf w;
  waiting_jobs : jobs (subscriber w) !! p = Some c;
  waiting_chan : chans w !! c = Some {| cap := 1; buf := b |}
}.

(** The state of a channel that has been made, holds nothing, and is
    registered under no path but [p]. *)
Record silent (p : ObjectPath) (c : chanref) (w : World) : Prop := {
  silent_lt : c < next_chan w;
  silent_chan : ∀ ch, chans w !! c = Some ch → buf ch = [];
  silent_jobs : ∀ q, jobs (subscriber w) !! q = Some c → q = p
}.

(** ** Further definitions: the consumer of the status channel *)

(** What a consumer does with one entry of a received map to keep a view of
    the units: a record replaces the entry of the view, nil removes it. *)
Definition apply_entry (v : option UnitStatus) (d : option (option UnitStatus))
  : option UnitStatus :=
  match d with
  | Some (Some u) => Some u
  | Some None => None
  | None => v
  end.

Definition apply_delta (view : gmap string UnitStatus)
    (changed : gmap string (option UnitStatus)) : gmap string UnitStatus :=
  merge apply_entry view changed.

(** The units of a successful result of [ListUnits], the error of a failed
    one. *)
Definition fetched_units (fetched : list UnitStatus + Error)
  : option (list UnitStatus) :=
  match fetched with inl units => Some units | inr _ => None end.

Definition fetch_error (fetched : list UnitStatus + Error) : option Error :=
  match fetched with inl _ => None | inr err => Some err end.

(** ** Further definitions: [ListUnits] and [init] *)

(** [dbus.Store] for one row of the reply and its destination
    [&status[i]]: the library turns a slice of interfaces into the struct
    when the slice has one element for each field, of the type of the
    field, in the order of the declaration; anything else is an error. *)
Definition store_UnitStatus (row : list Variant) : option UnitStatus :=
  match row with
  | [VString name; VString description; VString loadState;
     VString activeState; VString subState; VString followed;
     VObjectPath path; VUint32 jobId; VString jobType; VObjectPath jobPath] =>
      Some {| Name := name; Description := description;
              LoadState := loadState; ActiveState := activeState;
              SubState := subState; Followed := followed; Path := path;
              JobId := jobId; JobType := jobType; JobPath := jobPath |}
  | _ => None
  end.

(** A row that carries the fields of a record. *)
Definition UnitStatus_row (u : UnitStatus) : list Variant :=
  [VString (Name u); VString (Description u); VString (LoadState u);
   VString (ActiveState u); VString (SubState u); VString (Followed u);
   VObjectPath (Path u); VUint32 (JobId u); VString (JobType u);
   VObjectPath (JobPath u)].

(** Lines 185-209.  [reply] is what
    [sysobj.Call("ListUnits", 0).Store(&result)] gives: the rows, or the
    error.  The second [dbus.Store] (line 203) gets as many destinations as
    there are rows and stores them one after the other; [Store_error] is
    the error it returns when a row does not fit. *)
Definition ListUnits (Store_error : Error)
    (reply : list (list Variant) + Error) : list UnitStatus + Error :=
  match reply with
  | inr err => inr err
  | inl result =>
      match mapM store_UnitStatus result with
      | Some status => inl status
      | None => inr Store_error
      end
  end.

(** The errors that the calls of [init] return, [None] for nil. *)
Record InitCalls := {
  SystemBusPrivate : option Error;
  Auth : option Error;
  Hello : option Error;
  AddMatch : option Error;
  Subscribe : option Error
}.

Inductive Conn := ConnOpen | ConnClosed.

(** The package variables after [init]: [sysconn] ([None] when no
    connection was made), whether [sysobj] was set, and the state of the
    correlator when [initSubscriber] ran. *)
Record Package := {
  sysconn : option Conn;
  sysobj : bool;
  correlator : option World
}.

(** Lines 23-53. *)
Definition init (calls : InitCalls) : Package :=
  match SystemBusPrivate calls with
  | Some _ => {| sysconn := None; sysobj := false; correlator := None |}
  | None =>
      match Auth calls with
      | Some _ =>
          {| sysconn := Some ConnClosed; sysobj := false; correlator := None |}
      | None =>
          match Hello calls with
          | Some _ =>
              {| sysconn := Some ConnClosed; sysobj := false;
                 correlator := None |}
          | None =>
              match Subscribe calls with
              | Some _ =>
                  {| sysconn := Some ConnClosed; sysobj := true;
                     correlator := None |}
              | None =>
                  {| sysconn := Some ConnOpen; sysobj := true;
                     correlator := Some initSubscriber |}
              end
          end
      end
  end.
Lemma wf_initSubscriber : wf initSubscriber.
Proof. split; simpl; intros *; rewrite lookup_empty; discriminate. Qed.

Lemma chan_send_Some w c v w' :
  chan_send w c v = Some w' →
  ∃ ch, chans w !! c = Some ch ∧ length (buf ch) < cap ch ∧
        w' = {| subscriber := subscriber w;
                chans := <[c := {| cap := cap ch; buf := buf ch ++ [v] |}]> (chans w);
                next_chan := next_chan w |}.
Proof.
  unfold chan_send. destruct (chans w !! c) as [ch|]; [|discriminate].
  case_decide; [|discriminate]. intros [= <-]. eauto.
Qed.

Lemma chan_recv_Some w c v w' :
  chan_recv w c = Some (v, w') →
  ∃ ch rest, chans w !! c = Some ch ∧ buf ch = v :: rest ∧
        w' = {| subscriber := subscriber w;
                chans := <[c := {| cap := cap ch; buf := rest |}]> (chans w);
                next_chan := next_chan w |}.
Proof.
  unfold chan_recv. destruct (chans w !! c) as [ch|]; [|discriminate].
  destruct (buf ch) as [|x rest] eqn:E; [discriminate|].
  intros [= <- <-]. eauto.
Qed.

(** The listener never touches the table: whatever it reads, [subscriber]
    and the allocation counter are as before. *)
Lemma listener_Next w signal w' sent :
  listener w signal = Next w' sent →
  subscriber w' = subscriber w ∧ next_chan w' = next_chan w ∧
  ((w' = w ∧ sent = []) ∨
   ∃ sig c, signal = Some sig ∧
     Signal.Name sig = managerInterface +:+ ".JobRemoved" ∧
     jobs (subscriber w) !! JobRemoved.job (Store (Signal.Body sig)) = Some c ∧
     chan_send w c (JobRemoved.result (Store (Signal.Body sig))) = Some w' ∧
     sent = [(c, JobRemoved.result (Store (Signal.Body sig)))]).
Proof.
  unfold listener. destruct signal as [sig|]; [|intros [= <- <-]; auto].
  case_decide as Hn; [|intros [= <- <-]; auto].
  destruct (jobs (subscriber w) !! _) as [c|] eqn:Hj; [|intros [= <- <-]; auto].
  destruct (chan_send w c _) as [w1|] eqn:Hs; [|discriminate].
  intros [= <- <-].
  destruct (chan_send_Some _ _ _ _ Hs) as (ch & _ & _ & ->). simpl.
  split; [done|]. split; [done|]. right. exists sig, c. auto.
Qed.

Lemma wf_chan_send w c v w' : wf w → chan_send w c v = Some w' → wf w'.
Proof.
  intros [H1 H2 H3] (ch & Hc & _ & ->)%chan_send_Some.
  split; simpl; [done..|].
  intros c' ch'. rewrite lookup_insert. case_decide; subst; eauto.
Qed.

Lemma wf_chan_recv w c v w' : wf w → chan_recv w c = Some (v, w') → wf w'.
Proof.
  intros [H1 H2 H3] (ch & rest & Hc & _ & ->)%chan_recv_Some.
  split; simpl; [done..|].
  intros c' ch'. rewrite lookup_insert. case_decide; subst; eauto.
Qed.

Lemma wf_startJob w reply : wf w → wf (startJob w reply).1.
Proof.
  intros [H1 H2 H3]. unfold startJob, make_chan.
  destruct reply as [path|err]; simpl; split; simpl.
  - intros p c. rewrite lookup_insert. case_decide.
    + intros [= <-]. lia.
    + intros Hp%H1. lia.
  - intros p1 p2 c. rewrite !lookup_insert.
    repeat case_decide; subst; try done.
    + intros [= <-] Hp%H1. lia.
    + intros Hp%H1 [= <-]. lia.
    + eauto.
  - intros c ch. rewrite lookup_insert. case_decide.
    + subst. lia.
    + intros Hc%H3. lia.
  - intros p c Hp%H1. lia.
  - done.
  - intros c ch. rewrite lookup_insert. case_decide.
    + subst. lia.
    + intros Hc%H3. lia.
Qed.

Lemma wf_step w a w' sent : wf w → step w a = Some (w', sent) → wf w'.
Proof.
  intros Hw. destruct a as [reply|signal|c]; simpl.
  - intros [= <- <-]. by apply wf_startJob.
  - destruct (listener w signal) as [w1 s1|] eqn:Hl; [|discriminate].
    intros [= <- <-].
    destruct (listener_Next _ _ _ _ Hl) as (_ & _ & [[-> _]|(sig & c & _ & _ & _ & Hs & _)]);
      [done|]. by eapply wf_chan_send.
  - destruct (chan_recv w c) as [[v w1]|] eqn:Hr; [|discriminate].
    intros [= <- <-]. by eapply wf_chan_recv.
Qed.

Lemma run_cons_Some w a rest w' sent :
  run w (a :: rest) = Some (w', sent) →
  ∃ w1 t1 t2, step w a = Some (w1, t1) ∧ run w1 rest = Some (w', t2) ∧
              sent = t1 ++ t2.
Proof.
  simpl. destruct (step w a) as [[w1 t1]|]; [|discriminate].
  destruct (run w1 rest) as [[w2 t2]|] eqn:Hr; [|discriminate].
  intros [= <- <-]. by exists w1, t1, t2.
Qed.

Lemma run_app w acts1 acts2 :
  run w (acts1 ++ acts2) =
  match run w acts1 with
  | Some (w1, t1) =>
      match run w1 acts2 with
      | Some (w2, t2) => Some (w2, t1 ++ t2)
      | None => None
      end
  | None => None
  end.
Proof.
  revert w. induction acts1 as [|a acts1 IH]; intros w; simpl.
  - by destruct (run w acts2) as [[w2 t2]|].
  - destruct (step w a) as [[w1 t1]|]; [|done].
    rewrite IH. destruct (run w1 acts1) as [[w2 t2]|]; [|done].
    destruct (run w2 acts2) as [[w3 t3]|]; [|done].
    by rewrite app_assoc.
Qed.

Lemma wf_run acts : ∀ w w' sent, wf w → run w acts = Some (w', sent) → wf w'.
Proof.
  induction acts as [|a acts IH]; intros w w' sent Hw.
  - by intros [= <- <-].
  - intros (w1 & t1 & t2 & Hs & Hr & _)%run_cons_Some.
    eapply IH; [|done]. by eapply wf_step.
Qed.

Lemma wf_reachable w : reachable w → wf w.
Proof. intros (acts & sent & Hr). eapply wf_run; [apply wf_initSubscriber|done]. Qed.

(** ** Sends per channel *)

Lemma sent_to_app c s1 s2 : sent_to c (s1 ++ s2) = sent_to c s1 ++ sent_to c s2.
Proof. unfold sent_to. by rewrite filter_app, fmap_app. Qed.

Lemma sent_to_nil c : sent_to c [] = [].
Proof. reflexivity. Qed.

Lemma sent_to_same c v : sent_to c [(c, v)] = [v].
Proof. unfold sent_to. rewrite filter_cons_True by done. reflexivity. Qed.

Lemma sent_to_other c c' v : c' ≠ c → sent_to c [(c', v)] = [].
Proof. intros H. unfold sent_to. rewrite filter_cons_False by done. reflexivity. Qed.

(** ** Channels that left the table *)

Lemma unregistered_step c w a w' sent :
  unregistered c w → step w a = Some (w', sent) →
  unregistered c w' ∧ sent_to c sent = [].
Proof.
  intros [Hlt Hno]. destruct a as [reply|signal|c0]; simpl.
  - intros [= <- <-]. split; [|done].
    unfold startJob, make_chan. destruct reply as [path|err]; simpl.
    + split; simpl; [lia|]. intros p. rewrite lookup_insert.
      case_decide; [|apply Hno]. intros [= <-]. lia.
    + split; simpl; [lia|done].
  - destruct (listener w signal) as [w1 s1|] eqn:Hl; [|discriminate].
    intros [= <- <-].
    destruct (listener_Next _ _ _ _ Hl)
      as (Hsub & Hnext & [[-> ->]|(sig & c1 & _ & _ & Hj & _ & ->)]).
    + done.
    + split.
      * split; [by rewrite Hnext|]. by rewrite Hsub.
      * apply sent_to_other. intros ->. by apply (Hno _ Hj).
  - destruct (chan_recv w c0) as [[v w1]|] eqn:Hr; [|discriminate].
    intros [= <- <-].
    destruct (chan_recv_Some _ _ _ _ Hr) as (ch & rest & _ & _ & ->).
    done.
Qed.

Lemma unregistered_run c acts : ∀ w w' sent,
  unregistered c w → run w acts = Some (w', sent) →
  unregistered c w' ∧ sent_to c sent = [].
Proof.
  induction acts as [|a acts IH]; intros w w' sent Hu.
  - by intros [= <- <-].
  - intros (w1 & t1 & t2 & Hs & Hr & ->)%run_cons_Some.
    destruct (unregistered_step _ _ _ _ _ Hu Hs) as [Hu1 Ht1].
    destruct (IH _ _ _ Hu1 Hr) as [Hu2 Ht2].
    split; [done|]. by rewrite sent_to_app, Ht1, Ht2.
Qed.

(** ** Executions that report no job path twice *)

Lemma once_initSubscriber : once initSubscriber [] [].
Proof.
  split; simpl; try done; try apply wf_initSubscriber.
  - intros _. lia.
  - intros c Hc. lia.
Qed.

Lemma once_startJob w sent seen reply :
  once w sent seen → once (startJob w reply).1 sent seen.
Proof.
  intros H. pose proof (wf_startJob w reply (once_wf _ _ _ H)) as Hwf.
  destruct H as [_ Hfresh Hle Hbuf Hnew Hchans].
  split; [done| |done|..].
  - unfold startJob, make_chan. destruct reply as [path|err]; simpl; [|done].
    intros p c. rewrite lookup_insert. case_decide; [|apply Hfresh].
    intros [= <-] _. by apply Hnew.
  - assert (chans (startJob w reply).1 =
            <[next_chan w := {| cap := 1; buf := [] |}]> (chans w)) as ->.
    { by destruct reply. }
    intros c ch. rewrite lookup_insert. case_decide; [|apply Hbuf].
    intros [= <-]. simpl. split; [done|lia].
  - assert (next_chan (startJob w reply).1 = S (next_chan w)) as ->.
    { by destruct reply. }
    intros c Hc. apply Hnew. lia.
  - assert (next_chan (startJob w reply).1 = S (next_chan w)) as ->.
    { by destruct reply. }
    assert (chans (startJob w reply).1 =
            <[next_chan w := {| cap := 1; buf := [] |}]> (chans w)) as ->.
    { by destruct reply. }
    intros c Hc. rewrite lookup_insert. case_decide; [eauto|].
    apply Hchans. lia.
Qed.

Lemma once_chan_recv w sent seen c v w' :
  once w sent seen → chan_recv w c = Some (v, w') → once w' sent seen.
Proof.
  intros H Hr. pose proof (wf_chan_recv _ _ _ _ (once_wf _ _ _ H) Hr) as Hwf.
  destruct H as [_ Hfresh Hle Hbuf Hnew Hchans].
  destruct (chan_recv_Some _ _ _ _ Hr) as (ch & rest & Hc & Hb & ->).
  split; simpl; try done.
  - intros c' ch'. rewrite lookup_insert. case_decide; [|apply Hbuf].
    subst c'. intros [= <-]. simpl.
    destruct (Hbuf _ _ Hc) as [Hcap Hlen]. rewrite Hb in Hlen. simpl in Hlen.
    split; [done|lia].
  - intros c' Hc'. rewrite lookup_insert. case_decide; [eauto|by apply Hchans].
Qed.

(** The listener's send finds room when the path is reported for the first
    time. *)
Lemma once_JobRemoved w sent seen sig :
  once w sent seen →
  Signal.Name sig = managerInterface +:+ ".JobRemoved" →
  JobRemoved.job (Store (Signal.Body sig)) ∉ seen →
  ∃ w' s, listener w (Some sig) = Next w' s ∧
          once w' (sent ++ s)
               (seen ++ [JobRemoved.job (Store (Signal.Body sig))]).
Proof.
  intros H Hname Hseen.
  destruct H as [Hwf Hfresh Hle Hbuf Hnew Hchans].
  unfold listener. rewrite decide_True by done. cbv zeta.
  set (p := JobRemoved.job (Store (Signal.Body sig))) in *.
  set (r := JobRemoved.result (Store (Signal.Body sig))).
  destruct (jobs (subscriber w) !! p) as [c|] eqn:Hj.
  - pose proof (Hfresh _ _ Hj Hseen) as Hc0.
    destruct (Hchans c (wf_jobs_lt _ Hwf _ _ Hj)) as [ch Hch].
    destruct (Hbuf _ _ Hch) as [Hcap Hlen]. rewrite Hc0 in Hlen. simpl in Hlen.
    unfold chan_send. rewrite Hch. rewrite decide_True by lia.
    eexists _, _. split; [reflexivity|].
    split; simpl.
    + eapply (wf_chan_send w c r); [done|].
      unfold chan_send. rewrite Hch. by rewrite decide_True by lia.
    + intros p' c' Hj' Hp'. rewrite sent_to_app.
      assert (p' ≠ p) as Hne. { intros ->. apply Hp', elem_of_app. right. apply list_elem_of_here. }
      assert (c ≠ c') as Hcne.
      { intros ->. apply Hne. by eapply (wf_jobs_inj _ Hwf). }
      rewrite sent_to_other by done. rewrite app_nil_r.
      apply (Hfresh _ _ Hj'). intros Hin. apply Hp', elem_of_app. by left.
    + intros c'. rewrite sent_to_app. destruct (decide (c = c')) as [<-|Hcne].
      * rewrite Hc0, sent_to_same. simpl. lia.
      * rewrite sent_to_other by done. rewrite app_nil_r. apply Hle.
    + intros c' ch'. rewrite lookup_insert, sent_to_app. case_decide.
      * subst c'. intros [= <-]. simpl. rewrite Hc0, sent_to_same.
        rewrite length_app. simpl. split; [done|lia].
      * rewrite sent_to_other by done. rewrite app_nil_r. apply Hbuf.
    + intros c' Hc'. rewrite sent_to_app.
      assert (c ≠ c') as Hcne.
      { pose proof (wf_jobs_lt _ Hwf _ _ Hj). lia. }
      rewrite sent_to_other by done. rewrite app_nil_r. by apply Hnew.
    + intros c' Hc'. rewrite lookup_insert. case_decide; [eauto|by apply Hchans].
  - eexists _, _. split; [reflexivity|]. rewrite app_nil_r.
    split; try done.
    intros p' c' Hj' Hp'. apply (Hfresh _ _ Hj').
    intros Hin. apply Hp', elem_of_app. by left.
Qed.

(** A signal that is nil or not [JobRemoved] changes nothing. *)
Lemma listener_ignores w signal :
  removed_path (ActSignal signal) = None → listener w signal = Next w [].
Proof.
  unfold removed_path, listener. destruct signal as [sig|]; [|done].
  by case_decide.
Qed.

Lemma removed_path_Some signal p :
  removed_path (ActSignal signal) = Some p →
  ∃ sig, signal = Some sig ∧
         Signal.Name sig = managerInterface +:+ ".JobRemoved" ∧
         p = JobRemoved.job (Store (Signal.Body sig)).
Proof.
  unfold removed_path. destruct signal as [sig|]; [|done].
  case_decide; [|done]. intros [= <-]. eauto.
Qed.

Lemma removed_paths_snoc acts a :
  removed_paths (acts ++ [a]) =
  removed_paths acts ++ match removed_path a with Some p => [p] | None => [] end.
Proof.
  unfold removed_paths. rewrite omap_app. simpl.
  by destruct (removed_path a).
Qed.

Lemma once_run acts : ∀ w sent,
  NoDup (removed_paths acts) →
  run initSubscriber acts = Some (w, sent) →
  once w sent (removed_paths acts).
Proof.
  induction acts as [|a acts IH] using rev_ind; intros w sent Hnd.
  - intros [= <- <-]. apply once_initSubscriber.
  - rewrite run_app.
    destruct (run initSubscriber acts) as [[w1 t1]|] eqn:Hr; [|discriminate].
    rewrite removed_paths_snoc in Hnd |- *.
    apply NoDup_app in Hnd as (Hnd1 & Hdisj & _).
    specialize (IH _ _ Hnd1 eq_refl).
    simpl. destruct a as [reply|signal|c]; simpl.
    + intros [= <- <-]. rewrite !app_nil_r. by apply once_startJob.
    + destruct (removed_path (ActSignal signal)) as [p|] eqn:Hp.
      * destruct (removed_path_Some _ _ Hp) as (sig & -> & Hname & ->).
        destruct (once_JobRemoved _ _ _ sig IH Hname) as (w2 & s & Hl & Ho).
        { intros Hin. apply (Hdisj _ Hin), list_elem_of_here. }
        rewrite Hl. intros [= <- <-]. by rewrite app_nil_r.
      * rewrite (listener_ignores _ _ Hp). intros [= <- <-].
        by rewrite !app_nil_r.
    + destruct (chan_recv w1 c) as [[v w2]|] eqn:Hrecv; [|discriminate].
      intros [= <- <-]. rewrite !app_nil_r. by eapply once_chan_recv.
Qed.

(** ** The poller's loops *)

Lemma decide_elem_of_head {A B} `{EqDecision A} (x : A) (l : list A) (a b : B) :
  (if decide (x ∈ x :: l) then a else b) = a.
Proof. rewrite decide_True; [done|apply list_elem_of_here]. Qed.

Lemma decide_elem_of_tail {A B} `{EqDecision A} (x y : A) (l : list A) (a b : B) :
  x ≠ y →
  (if decide (x ∈ y :: l) then a else b) = (if decide (x ∈ l) then a else b).
Proof.
  intros Hne. destruct (decide (x ∈ l)) as [Hin|Hout].
  - rewrite decide_True; [done|by apply list_elem_of_further].
  - rewrite decide_False; [done|].
    intros [?|?]%elem_of_cons; [by apply Hne|by apply Hout].
Qed.

Lemma elem_of_fst_map_to_list {A} (m : gmap string A) (k : string) :
  k ∈ (map_to_list m).*1 ↔ is_Some (m !! k).
Proof.
  rewrite list_elem_of_fmap. split.
  - intros [[k' v] [-> Hin%elem_of_map_to_list]]. eauto.
  - intros [v Hv]. exists (k, v). split; [done|by apply elem_of_map_to_list].
Qed.

Section Ranges.
Variable isChanged : UnitStatus → UnitStatus → bool.

Lemma range_cur_cons n u order old changed :
  range_cur isChanged ((n, u) :: order) old changed =
  range_cur isChanged order (delete n old)
    (if new_or_changed isChanged old n u then <[n := Some u]> changed
     else changed).
Proof. reflexivity. Qed.

(** [delete(old, n)] takes exactly the visited names out of [old]. *)
Lemma range_cur_old order : ∀ old changed n,
  (range_cur isChanged order old changed).1 !! n =
  if decide (n ∈ order.*1) then None else old !! n.
Proof.
  induction order as [|[n0 u0] order IH]; intros old changed n.
  - reflexivity.
  - rewrite range_cur_cons, IH, fmap_cons. simpl.
    destruct (decide (n = n0)) as [->|Hne].
    + rewrite decide_elem_of_head, lookup_delete_eq. by case_decide.
    + by rewrite decide_elem_of_tail, lookup_delete_ne.
Qed.

(** When no name is visited twice, each visited name is judged against
    the entry that [old] had before the loop. *)
Lemma range_cur_changed order : NoDup order.*1 → ∀ old changed n,
  (range_cur isChanged order old changed).2 !! n =
  match (list_to_map order : gmap string UnitStatus) !! n with
  | Some u =>
      if new_or_changed isChanged old n u then Some (Some u)
      else changed !! n
  | None => changed !! n
  end.
Proof.
  induction order as [|[n0 u0] order IH]; intros Hnd old changed n.
  - simpl. by rewrite lookup_empty.
  - rewrite fmap_cons in Hnd. apply NoDup_cons in Hnd as [Hn0 Hnd].
    rewrite range_cur_cons, (IH Hnd). simpl.
    destruct (decide (n = n0)) as [->|Hne].
    + rewrite lookup_insert_eq.
      rewrite (not_elem_of_list_to_map_1 _ _ Hn0).
      destruct (new_or_changed isChanged old n0 u0); [|done].
      by rewrite lookup_insert_eq.
    + rewrite lookup_insert_ne by done.
      unfold new_or_changed at 1. rewrite lookup_delete_ne by done.
      fold (new_or_changed isChanged old n).
      assert ((if new_or_changed isChanged old n0 u0
               then <[n0 := Some u0]> changed else changed) !! n
              = changed !! n) as ->; [|done].
      destruct (new_or_changed isChanged old n0 u0); [|done].
      by rewrite lookup_insert_ne.
Qed.

Lemma range_old_lookup order : ∀ changed n,
  range_old order changed !! n =
  if decide (n ∈ order) then Some None else changed !! n.
Proof.
  induction order as [|n0 order IH]; intros changed n.
  - reflexivity.
  - simpl. change (fold_left _ order ?c) with (range_old order c).
    rewrite IH. destruct (decide (n = n0)) as [->|Hne].
    + rewrite decide_elem_of_head, lookup_insert_eq. by case_decide.
    + by rewrite decide_elem_of_tail, lookup_insert_ne.
Qed.

(** The map [changed] after both loops, for any visiting orders: any
    enumeration of [cur] for the first loop, and any enumeration of what
    is left of [old] for the second. *)
Lemma changed_in_lookup order_cur order_old old cur n :
  order_cur ≡ₚ map_to_list cur →
  (∀ k, k ∈ order_old ↔
        is_Some ((range_cur isChanged order_cur old ∅).1 !! k)) →
  changed_in isChanged order_cur order_old old !! n =
  delta_entry (λ oldU u, negb (isChanged oldU u)) old cur n.
Proof.
  intros Hperm Hold. unfold changed_in.
  assert (NoDup order_cur.*1) as Hnd.
  { rewrite Hperm. apply NoDup_fst_map_to_list. }
  assert ((list_to_map order_cur : gmap string UnitStatus) = cur) as Hcur.
  { rewrite (list_to_map_proper _ _ Hnd Hperm). apply list_to_map_to_list. }
  assert (n ∈ order_cur.*1 ↔ is_Some (cur !! n)) as Hin.
  { rewrite Hperm. apply elem_of_fst_map_to_list. }
  rewrite range_old_lookup, (range_cur_changed _ Hnd), Hcur, lookup_empty.
  unfold delta_entry, new_or_changed.
  case_decide as Hk.
  - apply Hold in Hk. rewrite range_cur_old in Hk.
    case_decide as Hc; [by destruct Hk|].
    destruct (cur !! n) as [u|] eqn:Ecur.
    { exfalso. apply Hc, Hin. eauto. }
    destruct Hk as [oldU ->]. done.
  - assert (¬ is_Some ((range_cur isChanged order_cur old ∅).1 !! n)) as Hk'.
    { intros H. by apply Hk, Hold. }
    rewrite range_cur_old in Hk'.
    case_decide as Hc.
    + apply Hin in Hc as [u ->].
      destruct (old !! n) as [oldU|]; [|done].
      by destruct (isChanged oldU u).
    + destruct (cur !! n) as [u|] eqn:Ecur.
      { exfalso. apply Hc, Hin. eauto. }
      destruct (old !! n) as [oldU|]; [|done].
      exfalso. apply Hk'. eauto.
Qed.

Lemma changed_units_changed_in old cur :
  changed_units isChanged old cur =
  changed_in isChanged (map_to_list cur)
    (map_to_list (range_cur isChanged (map_to_list cur) old ∅).1).*1 old.
Proof. reflexivity. Qed.

Lemma changed_units_lookup old cur n :
  changed_units isChanged old cur !! n =
  delta_entry (λ oldU u, negb (isChanged oldU u)) old cur n.
Proof.
  rewrite changed_units_changed_in. apply changed_in_lookup; [done|].
  intros k. apply elem_of_fst_map_to_list.
Qed.

(** The visiting orders do not matter. *)
Lemma changed_in_order order_cur order_old old cur :
  order_cur ≡ₚ map_to_list cur →
  (∀ k, k ∈ order_old ↔
        is_Some ((range_cur isChanged order_cur old ∅).1 !! k)) →
  changed_in isChanged order_cur order_old old =
  changed_units isChanged old cur.
Proof.
  intros H1 H2. apply map_eq. intros n.
  by rewrite changed_units_lookup, (changed_in_lookup _ _ _ cur).
Qed.
End Ranges.

(** ** The poller's cycles *)

Lemma delta_entry_negb_negb equal previous current n :
  delta_entry (λ oldU u, negb (negb (equal oldU u))) previous current n =
  delta_entry equal previous current n.
Proof.
  unfold delta_entry.
  destruct (current !! n) as [u|], (previous !! n) as [oldU|]; try done.
  by rewrite negb_involutive.
Qed.

(** A snapshot compared with itself gives the empty map, when no record
    counts as changed against itself. *)
Lemma changed_units_same isChanged (S : gmap string UnitStatus) :
  (∀ u, isChanged u u = false) → changed_units isChanged S S = ∅.
Proof.
  intros Hrefl. apply map_eq. intros n.
  rewrite changed_units_lookup, lookup_empty. unfold delta_entry.
  destruct (S !! n) as [u|]; [|done]. by rewrite Hrefl.
Qed.

Lemma SubscribeUnits_isChanged_same u : SubscribeUnits_isChanged u u = false.
Proof.
  unfold SubscribeUnits_isChanged. apply bool_decide_eq_false. by intros H.
Qed.

(** From the empty snapshot every unit is new. *)
Lemma changed_units_from_empty isChanged (S : gmap string UnitStatus) n :
  changed_units isChanged ∅ S !! n = Some <$> S !! n.
Proof.
  rewrite changed_units_lookup. unfold delta_entry.
  rewrite lookup_empty. by destruct (S !! n).
Qed.

(** Against the empty snapshot every unit is gone. *)
Lemma changed_units_to_empty isChanged (S : gmap string UnitStatus) n :
  changed_units isChanged S ∅ !! n = (λ _, None) <$> S !! n.
Proof.
  rewrite changed_units_lookup. unfold delta_entry.
  rewrite lookup_empty. by destruct (S !! n).
Qed.

(** The example of the specification: "b" removed, "a" changed, "c"
    added. *)
Example changed_units_abc :
  changed_units SubscribeUnits_isChanged
    (make_cur [unitA1; unitB]) (make_cur [unitA2; unitC]) =
  {[ "a.service" := Some unitA2; "b.service" := None;
     "c.service" := Some unitC ]}.
Proof. vm_compute. reflexivity. Qed.

(** C2: for every previous snapshot, current snapshot and equality
    predicate, the map that a successful cycle computes holds exactly: each
    name of the current snapshot that the previous one lacks or holds with a
    record that is not equal, with its current record; each name that only
    the previous snapshot holds, with nil; and nothing for a name that both
    hold with equal records.  That map is what the cycle sends. *)
Theorem poll_cycle_delta_exact (equal : UnitStatus → UnitStatus → bool) :
  (∀ (previous current : gmap string UnitStatus) (n : string),
      changed_units (λ oldU u, negb (equal oldU u)) previous current !! n =
      delta_entry equal previous current n) ∧
  (∀ (st : Poller) (units : list UnitStatus),
      statusChan (poll_cycle (λ oldU u, negb (equal oldU u)) (inl units) st) =
      statusChan st ++
        [changed_units (λ oldU u, negb (equal oldU u)) (old st) (make_cur units)]).
Proof.
  split.
  - intros previous current n.
    rewrite changed_units_lookup. apply delta_entry_negb_negb.
  - reflexivity.
Qed.

(** C3: a cycle whose fetch fails sends the error, once, on the error
    channel, sends nothing on the status channel and keeps [old]; the next
    successful cycle compares with the snapshot of the last successful
    fetch.  In particular, with cycles 1 and 3 successful and cycle 2
    failed, cycle 3 is compared with the snapshot of cycle 1. *)
Theorem poll_cycle_fetch_error (isChanged : UnitStatus → UnitStatus → bool)
    (st : Poller) (err : Error) :
  errChan (poll_cycle isChanged (inr err) st) = errChan st ++ [err] ∧
  statusChan (poll_cycle isChanged (inr err) st) = statusChan st ∧
  old (poll_cycle isChanged (inr err) st) = old st ∧
  (∀ units : list UnitStatus,
      statusChan (poll_cycle isChanged (inl units)
                    (poll_cycle isChanged (inr err) st)) =
      statusChan st ++ [changed_units isChanged (old st) (make_cur units)]) ∧
  (∀ units1 units3 : list UnitStatus,
      poll isChanged [inl units1; inr err; inl units3] st =
      {| old := make_cur units3;
         statusChan :=
           statusChan st ++
             [changed_units isChanged (old st) (make_cur units1);
              changed_units isChanged (make_cur units1) (make_cur units3)];
         errChan := errChan st ++ [err] |}).
Proof.
  repeat split.
  intros units1 units3. unfold poll. simpl.
  by rewrite <- app_assoc.
Qed.

(** C7: a cycle whose fetch succeeds sends the computed map on the status
    channel, also when that map is empty, and makes the fetched snapshot the
    new [old]; the error channel gets nothing.  (In the source the
    assignment [old = cur] of line 262 comes before the send of line 264;
    [old] is private to the goroutine, so the state after the cycle is the
    same.)  The last part shows an empty map being sent: the same units
    fetched twice in a row. *)
Theorem poll_cycle_success (isChanged : UnitStatus → UnitStatus → bool)
    (st : Poller) (units : list UnitStatus) :
  statusChan (poll_cycle isChanged (inl units) st) =
    statusChan st ++ [changed_units isChanged (old st) (make_cur units)] ∧
  length (statusChan (poll_cycle isChanged (inl units) st)) =
    S (length (statusChan st)) ∧
  old (poll_cycle isChanged (inl units) st) = make_cur units ∧
  errChan (poll_cycle isChanged (inl units) st) = errChan st ∧
  statusChan (poll SubscribeUnits_isChanged [inl units; inl units] st) =
    statusChan st ++
      [changed_units SubscribeUnits_isChanged (old st) (make_cur units); ∅].
Proof.
  repeat split.
  - simpl. rewrite length_app. simpl. lia.
  - unfold poll. simpl.
    rewrite (changed_units_same _ _ SubscribeUnits_isChanged_same).
    by rewrite <- app_assoc.
Qed.

(** ** The job correlator *)

(** [runJob] hands the error of a failed call back at once. *)
Lemma runJob_call_fails w err between :
  runJob w (CallErr err) between = Some ("", Some err).
Proof. reflexivity. Qed.

(** [runJob] returns the result that the [JobRemoved] signal of its own job
    carries. *)
Lemma runJob_own_result w sig :
  Signal.Name sig = managerInterface +:+ ".JobRemoved" →
  runJob w (CallOk (JobRemoved.job (Store (Signal.Body sig))))
    [ActSignal (Some sig)] =
  Some (JobRemoved.result (Store (Signal.Body sig)), None).
Proof.
  intros Hname. unfold runJob, startJob, make_chan. simpl.
  unfold listener. rewrite decide_True by done. simpl.
  rewrite lookup_insert_eq. unfold chan_send. simpl.
  rewrite lookup_insert_eq. simpl.
  unfold chan_recv. simpl. by rewrite lookup_insert_eq.
Qed.

(** C1: in every state the package can reach, and so after any operations
    enqueued under distinct job paths, a [JobRemoved] signal for a job path
    has its result sent only to the channel registered under that path: a
    send goes to that channel and carries that result, and a channel
    registered under another path receives nothing and is left as it was. *)
Theorem JobRemoved_only_to_own_path (w : World) (sig : Signal.t) (w' : World)
    (sent : list (nat * string)) :
  reachable w →
  Signal.Name sig = managerInterface +:+ ".JobRemoved" →
  listener w (Some sig) = Next w' sent →
  (∀ c v, (c, v) ∈ sent →
     jobs (subscriber w) !! JobRemoved.job (Store (Signal.Body sig)) = Some c ∧
     v = JobRemoved.result (Store (Signal.Body sig))) ∧
  (∀ c, jobs (subscriber w) !! JobRemoved.job (Store (Signal.Body sig)) = Some c →
     sent = [(c, JobRemoved.result (Store (Signal.Body sig)))]) ∧
  (∀ p c, jobs (subscriber w) !! p = Some c →
     p ≠ JobRemoved.job (Store (Signal.Body sig)) →
     sent_to c sent = [] ∧ chans w' !! c = chans w !! c).
Proof.
  intros Hwf%wf_reachable Hname Hl.
  destruct (listener_Next _ _ _ _ Hl)
    as (_ & _ & [[-> ->]|(sig' & c0 & [= <-] & _ & Hj & Hs & ->)]).
  - split; [|split].
    + intros c v Hin. by apply elem_of_nil in Hin.
    + intros c Hj. revert Hl. unfold listener.
      rewrite decide_True by done. cbv zeta. rewrite Hj.
      by destruct (chan_send w c _).
    + done.
  - split; [|split].
    + intros c v [= -> ->]%list_elem_of_singleton. done.
    + intros c Hj'. congruence.
    + intros p c Hp Hne.
      assert (c0 ≠ c) as Hc.
      { intros ->. apply Hne. by eapply (wf_jobs_inj _ Hwf). }
      split; [by apply sent_to_other|].
      destruct (chan_send_Some _ _ _ _ Hs) as (ch & _ & _ & ->). simpl.
      by rewrite lookup_insert_ne.
Qed.

Lemma JobRemoved_only_to_own_path_witness :
  sent_to 1 [(0, "done")] = [] ∧ chans two_jobs_done !! 1 = chans two_jobs !! 1.
Proof.
  refine (proj2 (proj2 (JobRemoved_only_to_own_path two_jobs job1_done
            two_jobs_done [(0, "done")] _ _ _)) job2 1 _ _).
  - exists [ActStartJob (CallOk job1); ActStartJob (CallOk job2)], [].
    vm_compute. reflexivity.
  - reflexivity.
  - vm_compute. reflexivity.
  - vm_compute. reflexivity.
  - vm_compute. discriminate.
Defined.

(** C4, as amended: a [JobRemoved] signal whose job path is in the table
    has its result sent to the channel of that entry, when the buffer of
    the channel has room, and the table stays as it is: the entry is still
    registered afterwards. *)
Theorem JobRemoved_known_path (w : World) (sig : Signal.t) (c : nat)
    (ch : chanT) :
  Signal.Name sig = managerInterface +:+ ".JobRemoved" →
  jobs (subscriber w) !! JobRemoved.job (Store (Signal.Body sig)) = Some c →
  chans w !! c = Some ch →
  length (buf ch) < cap ch →
  ∃ w', listener w (Some sig) =
          Next w' [(c, JobRemoved.result (Store (Signal.Body sig)))] ∧
        subscriber w' = subscriber w ∧
        jobs (subscriber w') !! JobRemoved.job (Store (Signal.Body sig)) = Some c ∧
        chans w' !! c =
          Some {| cap := cap ch;
                  buf := buf ch ++ [JobRemoved.result (Store (Signal.Body sig))] |}.
Proof.
  intros Hname Hj Hch Hlen. unfold listener.
  rewrite decide_True by done. cbv zeta. rewrite Hj.
  unfold chan_send. rewrite Hch. rewrite decide_True by done.
  eexists. split; [reflexivity|]. simpl.
  split; [done|]. split; [done|]. by rewrite lookup_insert_eq.
Qed.

Lemma JobRemoved_known_path_witness :
  ∃ w', listener one_job (Some job1_done) = Next w' [(0, "done")] ∧
        subscriber w' = subscriber one_job ∧
        jobs (subscriber w') !! job1 = Some 0 ∧
        chans w' !! 0 = Some {| cap := 1; buf := ["done"] |}.
Proof.
  refine (JobRemoved_known_path one_job job1_done 0
            {| cap := 1; buf := [] |} _ _ _ _).
  - reflexivity.
  - vm_compute. reflexivity.
  - vm_compute. reflexivity.
  - simpl. lia.
Defined.

(** C4 as stated fails: after the listener has handled the [JobRemoved]
    signal of a registered job, the entry is still in the table. *)
Lemma JobRemoved_entry_not_removed :
  jobs (subscriber one_job) !! job1 = Some 0 ∧
  listener one_job (Some job1_done) = Next one_job_done [(0, "done")] ∧
  jobs (subscriber one_job_done) !! job1 = Some 0 ∧
  ¬ (jobs (subscriber one_job_done) !! job1 = None).
Proof.
  split; [vm_compute; reflexivity|].
  split; [vm_compute; reflexivity|].
  split; [vm_compute; reflexivity|].
  vm_compute. discriminate.
Qed.

(** C5: when the transport call fails, [startJob] returns a nil channel
    with the error, and the table is the one from before the call. *)
Theorem startJob_call_fails (w : World) (err : Error) :
  (startJob w (CallErr err)).2 = (None, Some err) ∧
  subscriber (startJob w (CallErr err)).1 = subscriber w ∧
  jobs (subscriber (startJob w (CallErr err)).1) = jobs (subscriber w).
Proof. repeat split. Qed.

(** C6: a [JobRemoved] signal whose job path is not in the table is
    dropped: the listener goes on to the next signal, the state is
    unchanged and nothing is sent. *)
Theorem JobRemoved_unknown_path (w : World) (sig : Signal.t) :
  Signal.Name sig = managerInterface +:+ ".JobRemoved" →
  jobs (subscriber w) !! JobRemoved.job (Store (Signal.Body sig)) = None →
  listener w (Some sig) = Next w [].
Proof.
  intros Hname Hj. unfold listener.
  rewrite decide_True by done. cbv zeta. by rewrite Hj.
Qed.

Lemma JobRemoved_unknown_path_witness :
  listener one_job (Some job2_done) = Next one_job [].
Proof.
  apply (JobRemoved_unknown_path one_job job2_done).
  - reflexivity.
  - vm_compute. reflexivity.
Defined.

(** C8 as stated fails: with the entry still in the table, a second
    [JobRemoved] signal for the same path finds the buffer full and the
    listener is stuck in the send; and once the waiter has received the
    first value, the second one is written to the same channel. *)
Lemma second_JobRemoved_same_path :
  (run initSubscriber [ActStartJob (CallOk job1); ActSignal (Some job1_done)] =
     Some (one_job_done, [(0, "done")]) ∧
   listener one_job_done (Some job1_done) = Blocked 0) ∧
  (option_map snd
     (run initSubscriber
        [ActStartJob (CallOk job1); ActSignal (Some job1_done); ActRecv 0;
         ActSignal (Some job1_done)]) =
     Some [(0, "done"); (0, "done")] ∧
   length (sent_to 0 [(0, "done"); (0, "done")]) = 2).
Proof.
  repeat split; vm_compute; reflexivity.
Qed.

(** C8, as amended: in an execution in which no job path is reported
    removed twice, the listener is never stuck in a send, whichever signal
    it handles next, and no channel is written to more than once. *)
Theorem JobRemoved_once_never_blocks (acts : list action)
    (signal : option Signal.t) (w : World) (sent : list (nat * string)) :
  NoDup (removed_paths (acts ++ [ActSignal signal])) →
  run initSubscriber acts = Some (w, sent) →
  ∃ w' s, listener w signal = Next w' s ∧
          ∀ c, (length (sent_to c (sent ++ s)) ≤ 1)%nat.
Proof.
  intros Hnd Hr.
  destruct (run initSubscriber (acts ++ [ActSignal signal]))
    as [[w2 t2]|] eqn:Hr2.
  - pose proof (once_run _ _ _ Hnd Hr2) as Ho.
    rewrite run_app, Hr in Hr2. simpl in Hr2.
    destruct (listener w signal) as [w' s|]; [|discriminate].
    injection Hr2 as <- <-. rewrite app_nil_r in Ho.
    exists w', s. split; [done|]. apply (once_le _ _ _ Ho).
  - exfalso. rewrite removed_paths_snoc in Hnd.
    apply NoDup_app in Hnd as (Hnd1 & Hdisj & _).
    pose proof (once_run _ _ _ Hnd1 Hr) as Ho.
    rewrite run_app, Hr in Hr2. simpl in Hr2.
    destruct (removed_path (ActSignal signal)) as [p|] eqn:Hp.
    + destruct (removed_path_Some _ _ Hp) as (sig & -> & Hname & ->).
      destruct (once_JobRemoved _ _ _ sig Ho Hname) as (w' & s & Hl & _).
      { intros Hin. apply (Hdisj _ Hin), list_elem_of_here. }
      by rewrite Hl in Hr2.
    + by rewrite (listener_ignores _ _ Hp) in Hr2.
Qed.

Lemma JobRemoved_once_never_blocks_witness :
  ∃ w' s, listener two_jobs_done (Some job2_done) = Next w' s ∧
          ∀ c, (length (sent_to c ([(0, "done")] ++ s)) ≤ 1)%nat.
Proof.
  refine (JobRemoved_once_never_blocks
            [ActStartJob (CallOk job1); ActStartJob (CallOk job2);
             ActSignal (Some job1_done)]
            (Some job2_done) two_jobs_done [(0, "done")] _ _).
  - apply (bool_decide_unpack _). vm_compute. exact I.
  - vm_compute. reflexivity.
Defined.

(** C9: in every reachable state the table gives a job path at most one
    channel; and when [startJob] registers a channel under a path that is
    already registered, the new channel takes the place of the old one, and
    from then on nothing is ever sent to the old one. *)
Theorem startJob_overwrites (w : World) (p : ObjectPath) (c1 : nat) :
  reachable w →
  jobs (subscriber w) !! p = Some c1 →
  (∀ q a b, jobs (subscriber w) !! q = Some a →
            jobs (subscriber w) !! q = Some b → a = b) ∧
  ∃ c2, (startJob w (CallOk p)).2 = (Some c2, None) ∧
        c2 ≠ c1 ∧
        jobs (subscriber (startJob w (CallOk p)).1) !! p = Some c2 ∧
        (∀ q, jobs (subscriber (startJob w (CallOk p)).1) !! q ≠ Some c1) ∧
        ∀ acts w2 sent,
          run (startJob w (CallOk p)).1 acts = Some (w2, sent) →
          sent_to c1 sent = [].
Proof.
  intros Hwf%wf_reachable Hj. split; [congruence|].
  pose proof (wf_jobs_lt _ Hwf _ _ Hj) as Hlt.
  exists (next_chan w).
  assert (∀ q, jobs (subscriber (startJob w (CallOk p)).1) !! q ≠ Some c1)
    as Hgone.
  { intros q. simpl. rewrite lookup_insert. case_decide as Hq.
    - intros [= Heq]. lia.
    - intros Hq'. apply Hq. by eapply (wf_jobs_inj _ Hwf). }
  split; [done|]. split; [lia|]. split; [apply lookup_insert_eq|].
  split; [done|].
  intros acts w2 sent Hr.
  eapply (unregistered_run c1 acts); [|done].
  split; [simpl; lia|done].
Qed.

Lemma startJob_overwrites_witness :
  sent_to 0 [(1, "done")] = [].
Proof.
  destruct (startJob_overwrites one_job job1 0) as (_ & c2 & _ & _ & _ & _ & H).
  - exists [ActStartJob (CallOk job1)], []. vm_compute. reflexivity.
  - vm_compute. reflexivity.
  - apply (H [ActSignal (Some job1_done)]
             {| subscriber := subscriber (startJob one_job (CallOk job1)).1;
                chans := <[1 := {| cap := 1; buf := ["done"] |}]>
                           (chans (startJob one_job (CallOk job1)).1);
                next_chan := 2 |}).
    vm_compute. reflexivity.
Defined.

(** C10: for a signal that is nil or that has another name than
    [org.freedesktop.systemd1.Manager.JobRemoved], the listener leaves the
    state, and with it the table and every channel, as it is and sends
    nothing. *)
Theorem listener_other_signal (w : World) (signal : option Signal.t) :
  (signal = None ∨
   ∃ sig, signal = Some sig ∧
          Signal.Name sig ≠ "org.freedesktop.systemd1.Manager.JobRemoved") →
  listener w signal = Next w [] ∧
  step w (ActSignal signal) = Some (w, []).
Proof.
  intros Hs.
  assert (listener w signal = Next w []) as Hl.
  { destruct Hs as [->|(sig & -> & Hname)]; [done|].
    unfold listener. by rewrite decide_False. }
  split; [done|]. simpl. by rewrite Hl.
Qed.

Lemma listener_other_signal_witness :
  (listener two_jobs None = Next two_jobs [] ∧
   step two_jobs (ActSignal None) = Some (two_jobs, [])) ∧
  (listener two_jobs (Some unitNew) = Next two_jobs [] ∧
   step two_jobs (ActSignal (Some unitNew)) = Some (two_jobs, [])).
Proof.
  split.
  - apply (listener_other_signal two_jobs None). by left.
  - apply (listener_other_signal two_jobs (Some unitNew)).
    right. exists unitNew. split; [reflexivity|]. vm_compute. discriminate.
Defined.

(** ** Further properties of the correlator *)

Lemma startJob_replies_snoc acts a :
  startJob_replies (acts ++ [a]) =
  startJob_replies acts ++
    match startJob_reply a with Some r => [r] | None => [] end.
Proof.
  unfold startJob_replies. rewrite omap_app. simpl.
  by destruct (startJob_reply a).
Qed.

Lemma removed_results_snoc acts a :
  removed_results (acts ++ [a]) =
  removed_results acts ++
    match removed_result a with Some r => [r] | None => [] end.
Proof.
  unfold removed_results. rewrite omap_app. simpl.
  by destruct (removed_result a).
Qed.

Lemma jobs_startJob w reply q :
  jobs (subscriber (startJob w reply).1) !! q =
  match reply with
  | CallOk p => if decide (p = q) then Some (next_chan w)
                else jobs (subscriber w) !! q
  | CallErr _ => jobs (subscriber w) !! q
  end.
Proof. destruct reply as [p|err]; simpl; [apply lookup_insert|done]. Qed.

Lemma jobs_step w a w' sent q :
  step w a = Some (w', sent) →
  jobs (subscriber w') !! q =
  match a with
  | ActStartJob (CallOk p) =>
      if decide (p = q) then Some (next_chan w) else jobs (subscriber w) !! q
  | _ => jobs (subscriber w) !! q
  end.
Proof.
  destruct a as [reply|signal|c]; simpl.
  - intros [= <- <-]. rewrite jobs_startJob. by destruct reply.
  - destruct (listener w signal) as [w1 s1|] eqn:Hl; [|discriminate].
    intros [= <- <-]. by destruct (listener_Next _ _ _ _ Hl) as (-> & _).
  - destruct (chan_recv w c) as [[v w1]|] eqn:Hr; [|discriminate].
    intros [= <- <-].
    by destruct (chan_recv_Some _ _ _ _ Hr) as (ch & rest & _ & _ & ->).
Qed.

(** The paths that the successful calls of [startJob] in a schedule got. *)
Lemma jobs_run_lookup acts : ∀ w w' sent q,
  run w acts = Some (w', sent) →
  is_Some (jobs (subscriber w') !! q) ↔
  is_Some (jobs (subscriber w) !! q) ∨ ActStartJob (CallOk q) ∈ acts.
Proof.
  induction acts as [|a acts IH]; intros w w' sent q.
  - intros [= <- <-]. rewrite elem_of_nil. tauto.
  - intros (w1 & t1 & t2 & Hs & Hr & _)%run_cons_Some.
    rewrite (IH _ _ _ q Hr), (jobs_step _ _ _ _ q Hs), elem_of_cons.
    destruct a as [[p|err]|signal|c]; try (intuition congruence).
    case_decide as Hp.
    + subst p. intuition eauto.
    + intuition congruence.
Qed.

(** X1: no entry ever leaves the table.  After any execution the paths in
    the table are exactly those that were there before and those that a
    successful call of [startJob] got as reply since, whatever signals were
    handled and whatever the waiters received. *)
Theorem jobs_never_removed (acts : list action) (w w' : World)
    (sent : list (nat * string)) (q : ObjectPath) :
  run w acts = Some (w', sent) →
  (is_Some (jobs (subscriber w) !! q) → is_Some (jobs (subscriber w') !! q)) ∧
  (is_Some (jobs (subscriber w') !! q) ↔
   is_Some (jobs (subscriber w) !! q) ∨ ActStartJob (CallOk q) ∈ acts).
Proof.
  intros Hr. pose proof (jobs_run_lookup _ _ _ _ q Hr) as H.
  split; [|done]. intros Hq. apply H. by left.
Qed.

Lemma jobs_never_removed_witness :
  is_Some (jobs (subscriber one_job_done) !! job1).
Proof.
  refine (proj1 (jobs_never_removed [ActSignal (Some job1_done)] one_job
                   one_job_done [(0, "done")] job1 _) _).
  - vm_compute. reflexivity.
  - exists 0. vm_compute. reflexivity.
Defined.

(** *** The channel store *)

Lemma chans_ok_initSubscriber : chans_ok initSubscriber.
Proof.
  split; simpl.
  - intros c Hc. lia.
  - intros c ch. by rewrite lookup_empty.
Qed.

Lemma chans_ok_startJob w reply : chans_ok w → chans_ok (startJob w reply).1.
Proof.
  intros [Hmade Hcap].
  assert (chans (startJob w reply).1 =
          <[next_chan w := {| cap := 1; buf := [] |}]> (chans w)) as Hc.
  { by destruct reply. }
  assert (next_chan (startJob w reply).1 = S (next_chan w)) as Hn.
  { by destruct reply. }
  split; rewrite Hc; [rewrite Hn|].
  - intros c Hlt. rewrite lookup_insert. case_decide; [eauto|].
    apply Hmade. lia.
  - intros c ch. rewrite lookup_insert. case_decide; [|apply Hcap].
    intros [= <-]. simpl. split; [done|lia].
Qed.

Lemma chans_ok_chan_send w c v w' :
  chans_ok w → chan_send w c v = Some w' → chans_ok w'.
Proof.
  intros [Hmade Hcap] (ch & Hch & Hlen & ->)%chan_send_Some.
  destruct (Hcap _ _ Hch) as [Hcap1 _].
  split; simpl.
  - intros c' Hlt. rewrite lookup_insert. case_decide; [eauto|by apply Hmade].
  - intros c' ch'. rewrite lookup_insert. case_decide; [|apply Hcap].
    intros [= <-]. simpl. rewrite length_app. simpl. split; [done|lia].
Qed.

Lemma chans_ok_chan_recv w c v w' :
  chans_ok w → chan_recv w c = Some (v, w') → chans_ok w'.
Proof.
  intros [Hmade Hcap] (ch & rest & Hch & Hb & ->)%chan_recv_Some.
  destruct (Hcap _ _ Hch) as [Hcap1 Hlen]. rewrite Hb in Hlen. simpl in Hlen.
  split; simpl.
  - intros c' Hlt. rewrite lookup_insert. case_decide; [eauto|by apply Hmade].
  - intros c' ch'. rewrite lookup_insert. case_decide; [|apply Hcap].
    intros [= <-]. simpl. split; [done|lia].
Qed.

Lemma chans_ok_step w a w' sent :
  chans_ok w → step w a = Some (w', sent) → chans_ok w'.
Proof.
  intros Hw. destruct a as [reply|signal|c]; simpl.
  - intros [= <- <-]. by apply chans_ok_startJob.
  - destruct (listener w signal) as [w1 s1|] eqn:Hl; [|discriminate].
    intros [= <- <-].
    destruct (listener_Next _ _ _ _ Hl)
      as (_ & _ & [[-> _]|(sig & c & _ & _ & _ & Hs & _)]); [done|].
    by eapply chans_ok_chan_send.
  - destruct (chan_recv w c) as [[v w1]|] eqn:Hr; [|discriminate].
    intros [= <- <-]. by eapply chans_ok_chan_recv.
Qed.

Lemma chans_ok_run acts : ∀ w w' sent,
  chans_ok w → run w acts = Some (w', sent) → chans_ok w'.
Proof.
  induction acts as [|a acts IH]; intros w w' sent Hw.
  - by intros [= <- <-].
  - intros (w1 & t1 & t2 & Hs & Hr & _)%run_cons_Some.
    eapply IH; [|done]. by eapply chans_ok_step.
Qed.

Lemma chans_ok_reachable w : reachable w → chans_ok w.
Proof.
  intros (acts & sent & Hr).
  eapply chans_ok_run; [apply chans_ok_initSubscriber|done].
Qed.

(** X2: in every reachable state, a path of the table leads to a channel
    that exists, has capacity one and holds at most one value, and two
    different paths lead to two different channels. *)
Theorem registered_channels (w : World) (p : ObjectPath) (c : nat) :
  reachable w →
  jobs (subscriber w) !! p = Some c →
  (∃ ch, chans w !! c = Some ch ∧ cap ch = 1 ∧ (length (buf ch) ≤ 1)%nat) ∧
  (∀ q, q ≠ p → jobs (subscriber w) !! q ≠ Some c).
Proof.
  intros Hreach Hj.
  pose proof (wf_reachable _ Hreach) as Hwf.
  pose proof (chans_ok_reachable _ Hreach) as Hok.
  split.
  - destruct (chans_ok_made _ Hok c (wf_jobs_lt _ Hwf _ _ Hj)) as [ch Hch].
    exists ch. split; [done|]. by apply (chans_ok_cap _ Hok c).
  - intros q Hne Hq. apply Hne. by eapply (wf_jobs_inj _ Hwf).
Qed.

Lemma registered_channels_witness :
  (∃ ch, chans two_jobs_done !! 0 = Some ch ∧ cap ch = 1 ∧
         (length (buf ch) ≤ 1)%nat) ∧
  (∀ q, q ≠ job1 → jobs (subscriber two_jobs_done) !! q ≠ Some 0).
Proof.
  apply (registered_channels two_jobs_done job1 0).
  - exists [ActStartJob (CallOk job1); ActStartJob (CallOk job2);
            ActSignal (Some job1_done)], [(0, "done")].
    vm_compute. reflexivity.
  - vm_compute. reflexivity.
Defined.

(** X3: in a reachable state the listener is stuck on a [JobRemoved]
    signal exactly when the path of the signal is in the table and the
    channel registered under it still holds a value that its waiter has not
    received; in every other case it goes on to the next signal. *)
Theorem listener_Blocked_iff (w : World) (sig : Signal.t) (c : nat) :
  reachable w →
  Signal.Name sig = managerInterface +:+ ".JobRemoved" →
  listener w (Some sig) = Blocked c ↔
  jobs (subscriber w) !! JobRemoved.job (Store (Signal.Body sig)) = Some c ∧
  ∃ ch, chans w !! c = Some ch ∧ buf ch ≠ [].
Proof.
  intros Hreach Hname.
  pose proof (wf_reachable _ Hreach) as Hwf.
  pose proof (chans_ok_reachable _ Hreach) as Hok.
  unfold listener. rewrite decide_True by done. cbv zeta.
  destruct (jobs (subscriber w) !! _) as [c0|] eqn:Hj.
  - destruct (chans_ok_made _ Hok c0 (wf_jobs_lt _ Hwf _ _ Hj)) as [ch Hch].
    destruct (chans_ok_cap _ Hok _ _ Hch) as [Hcap Hlen].
    unfold chan_send. rewrite Hch, Hcap.
    destruct (decide (length (buf ch) < 1)) as [Hroom|Hfull].
    + split; [done|]. intros [[= <-] (ch' & Hch' & Hne)].
      rewrite Hch in Hch'. injection Hch' as <-.
      destruct (buf ch); [done|simpl in Hroom; lia].
    + split.
      * intros [= <-]. split; [done|]. exists ch. split; [done|].
        intros Hb. rewrite Hb in Hfull. simpl in Hfull. lia.
      * by intros [[= <-] _].
  - split; [done|]. by intros [? _].
Qed.

Lemma listener_Blocked_iff_witness :
  listener one_job_done (Some job1_done) = Blocked 0 ↔
  jobs (subscriber one_job_done) !! job1 = Some 0 ∧
  ∃ ch, chans one_job_done !! 0 = Some ch ∧ buf ch ≠ [].
Proof.
  apply (listener_Blocked_iff one_job_done job1_done 0).
  - exists [ActStartJob (CallOk job1); ActSignal (Some job1_done)],
      [(0, "done")].
    vm_compute. reflexivity.
  - reflexivity.
Defined.

(** *** Where the values of a channel come from *)

Lemma traced_initSubscriber : traced [] initSubscriber [].
Proof.
  split; simpl.
  - done.
  - intros p c. by rewrite lookup_empty.
  - intros c v Hin. by apply elem_of_nil in Hin.
Qed.

Lemma traced_step acts w sent a w' s :
  traced acts w sent → step w a = Some (w', s) →
  traced (acts ++ [a]) w' (sent ++ s).
Proof.
  intros [Hnext Hjobs Hsent] Hstep.
  assert (∀ c r, startJob_replies acts !! c = Some r →
                 startJob_replies (acts ++ [a]) !! c = Some r) as Hmono.
  { intros c r Hc. rewrite startJob_replies_snoc. by apply lookup_app_l_Some. }
  assert (∀ x, x ∈ removed_results acts → x ∈ removed_results (acts ++ [a]))
    as Hmono'.
  { intros x Hx. rewrite removed_results_snoc. apply elem_of_app. by left. }
  assert (∀ c v, (c, v) ∈ sent →
     ∃ p, startJob_replies (acts ++ [a]) !! c = Some (CallOk p) ∧
          (p, v) ∈ removed_results (acts ++ [a])) as Hsent'.
  { intros c v (p & Hc & Hp)%Hsent. exists p. split; [by apply Hmono|by apply Hmono']. }
  destruct a as [reply|signal|c0]; simpl in Hstep.
  - injection Hstep as <- <-. rewrite app_nil_r. split; [| |done].
    + rewrite startJob_replies_snoc, length_app. simpl.
      assert (next_chan (startJob w reply).1 = S (next_chan w)) as ->.
      { by destruct reply. }
      lia.
    + intros q c. rewrite jobs_startJob.
      destruct reply as [p|err]; [|by intros ?%Hjobs%Hmono].
      case_decide as Hp; [|by intros ?%Hjobs%Hmono].
      intros [= <-]. subst q. rewrite startJob_replies_snoc. simpl.
      rewrite Hnext. by rewrite list_lookup_middle.
  - destruct (listener w signal) as [w1 s1|] eqn:Hl; [|discriminate].
    injection Hstep as <- <-.
    destruct (listener_Next _ _ _ _ Hl)
      as (Hsub & Hn & [[-> ->]|(sig & c & -> & Hname & Hj & _ & ->)]).
    + rewrite app_nil_r. split; [|by intros q c ?%Hjobs%Hmono|done].
      rewrite startJob_replies_snoc. simpl. rewrite length_app. simpl. lia.
    + split.
      * rewrite Hn, startJob_replies_snoc. simpl. rewrite length_app. simpl. lia.
      * rewrite Hsub. by intros q c' ?%Hjobs%Hmono.
      * intros c' v [Hin|[= -> ->]%list_elem_of_singleton]%elem_of_app;
          [by apply Hsent'|].
        exists (JobRemoved.job (Store (Signal.Body sig))).
        split; [by apply Hmono, Hjobs|].
        rewrite removed_results_snoc. apply elem_of_app. right.
        simpl. rewrite decide_True by done. apply list_elem_of_here.
  - destruct (chan_recv w c0) as [[v w1]|] eqn:Hr; [|discriminate].
    injection Hstep as <- <-.
    destruct (chan_recv_Some _ _ _ _ Hr) as (ch & rest & _ & _ & ->).
    rewrite app_nil_r. split; simpl; [|by intros q c ?%Hjobs%Hmono|done].
    rewrite startJob_replies_snoc. simpl. rewrite length_app. simpl. lia.
Qed.

Lemma traced_run acts : ∀ w sent,
  run initSubscriber acts = Some (w, sent) → traced acts w sent.
Proof.
  induction acts as [|a acts IH] using rev_ind; intros w sent.
  - intros [= <- <-]. apply traced_initSubscriber.
  - rewrite run_app.
    destruct (run initSubscriber acts) as [[w1 t1]|] eqn:Hr; [|discriminate].
    simpl. destruct (step w1 a) as [[w2 t2]|] eqn:Hs; [|discriminate].
    intros [= <- <-]. rewrite app_nil_r.
    apply (traced_step acts w1 t1 a w2 t2); [by apply IH|done].
Qed.

(** X4: over a whole execution, whatever the interleaving, a value sent to
    a channel is the result of a [JobRemoved] signal that carried the very
    path that the call of [startJob] which made this channel got as reply;
    a channel made by a failed call is never sent anything.  Channels are
    numbered by the calls of [startJob]. *)
Theorem sent_values_come_from_own_path (acts : list action) (w : World)
    (sent : list (nat * string)) :
  run initSubscriber acts = Some (w, sent) →
  next_chan w = length (startJob_replies acts) ∧
  ∀ c v, (c, v) ∈ sent →
    ∃ p, startJob_replies acts !! c = Some (CallOk p) ∧
         (p, v) ∈ removed_results acts.
Proof.
  intros [Hnext _ Hsent]%traced_run. by split.
Qed.

Lemma sent_values_come_from_own_path_witness :
  ∃ p, startJob_replies
         [ActStartJob (CallOk job1); ActStartJob (CallOk job2);
          ActSignal (Some job1_done)] !! 0 = Some (CallOk p) ∧
       (p, "done") ∈ removed_results
         [ActStartJob (CallOk job1); ActStartJob (CallOk job2);
          ActSignal (Some job1_done)].
Proof.
  refine (proj2 (sent_values_come_from_own_path
            [ActStartJob (CallOk job1); ActStartJob (CallOk job2);
             ActSignal (Some job1_done)] two_jobs_done [(0, "done")] _)
          0 "done" _).
  - vm_compute. reflexivity.
  - apply list_elem_of_here.
Defined.

(** *** Waiters *)

Lemma chans_step_other w a w' sent c :
  step w a = Some (w', sent) →
  c < next_chan w →
  a ≠ ActRecv c →
  sent_to c sent = [] →
  chans w' !! c = chans w !! c.
Proof.
  intros Hstep Hlt Hrecv Hsent. destruct a as [reply|signal|c0]; simpl in Hstep.
  - injection Hstep as <- <-.
    assert (chans (startJob w reply).1 =
            <[next_chan w := {| cap := 1; buf := [] |}]> (chans w)) as ->.
    { by destruct reply. }
    apply lookup_insert_ne. lia.
  - destruct (listener w signal) as [w1 s1|] eqn:Hl; [|discriminate].
    injection Hstep as <- <-.
    destruct (listener_Next _ _ _ _ Hl)
      as (_ & _ & [[-> _]|(sig & c1 & _ & _ & _ & Hs & ->)]); [done|].
    destruct (chan_send_Some _ _ _ _ Hs) as (ch & _ & _ & ->). simpl.
    apply lookup_insert_ne. intros ->. by rewrite sent_to_same in Hsent.
  - destruct (chan_recv w c0) as [[v w1]|] eqn:Hr; [|discriminate].
    injection Hstep as <- <-.
    destruct (chan_recv_Some _ _ _ _ Hr) as (ch & rest & _ & _ & ->). simpl.
    apply lookup_insert_ne. congruence.
Qed.

(** The listener sends to [c] only for a signal that carries a path under
    which [c] is registered. *)
Lemma step_sent_to w a w' sent c :
  step w a = Some (w', sent) →
  (∀ p, removed_path a = Some p → jobs (subscriber w) !! p ≠ Some c) →
  sent_to c sent = [].
Proof.
  intros Hstep Hno. destruct a as [reply|signal|c0]; simpl in Hstep.
  - by injection Hstep as <- <-.
  - destruct (listener w signal) as [w1 s1|] eqn:Hl; [|discriminate].
    injection Hstep as <- <-.
    destruct (listener_Next _ _ _ _ Hl)
      as (_ & _ & [[-> ->]|(sig & c1 & -> & Hname & Hj & _ & ->)]); [done|].
    apply sent_to_other. intros ->. eapply Hno; [|done].
    unfold removed_path. by rewrite decide_True.
  - destruct (chan_recv w c0) as [[v w1]|]; [|discriminate].
    by injection Hstep as <- <-.
Qed.

Lemma waiting_step p c b w a w' sent :
  waiting p c b w → quiet p c a → step w a = Some (w', sent) →
  waiting p c b w'.
Proof.
  intros [Hwf Hj Hc] (Hstart & Hrem & Hrecv) Hstep.
  split.
  - by eapply wf_step.
  - rewrite (jobs_step _ _ _ _ p Hstep).
    destruct a as [[q|err]|signal|c0]; try done.
    rewrite decide_False; [done|]. intros ->. by apply Hstart.
  - rewrite (chans_step_other _ _ _ _ c Hstep); [done| |done|].
    + by eapply (wf_chans_lt _ Hwf).
    + apply (step_sent_to _ _ _ _ _ Hstep). intros q Hq Hjq.
      apply Hrem. rewrite Hq. f_equal. by eapply (wf_jobs_inj _ Hwf).
Qed.

Lemma waiting_run p c b acts : ∀ w w' sent,
  waiting p c b w → Forall (quiet p c) acts →
  run w acts = Some (w', sent) → waiting p c b w'.
Proof.
  induction acts as [|a acts IH]; intros w w' sent Hw Hq.
  - by intros [= <- <-].
  - apply Forall_cons in Hq as [Ha Hq].
    intros (w1 & t1 & t2 & Hs & Hr & _)%run_cons_Some.
    eapply IH; [|done|done]. by eapply waiting_step.
Qed.

Lemma startJob_CallOk w p :
  startJob w (CallOk p) =
  ((startJob w (CallOk p)).1, (Some (next_chan w), None)).
Proof. reflexivity. Qed.

Lemma waiting_startJob w p :
  wf w → waiting p (next_chan w) [] (startJob w (CallOk p)).1.
Proof.
  intros Hwf. split.
  - by apply wf_startJob.
  - simpl. apply lookup_insert_eq.
  - simpl. apply lookup_insert_eq.
Qed.

(** X5: [runJob] returns the result of the [JobRemoved] signal for its own
    job, whatever else happens in between: other calls of [startJob],
    signals for other paths, other waiters receiving.  (The steps in
    between do not register the path again and do not take the value out of
    the channel, and the signal for this job comes once.) *)
Theorem runJob_result_interleaved (w : World) (sig : Signal.t)
    (pre post : list action) :
  reachable w →
  Signal.Name sig = managerInterface +:+ ".JobRemoved" →
  Forall (quiet (JobRemoved.job (Store (Signal.Body sig))) (next_chan w)) pre →
  Forall (quiet (JobRemoved.job (Store (Signal.Body sig))) (next_chan w)) post →
  is_Some (run (startJob w (CallOk (JobRemoved.job (Store (Signal.Body sig))))).1
             (pre ++ ActSignal (Some sig) :: post)) →
  runJob w (CallOk (JobRemoved.job (Store (Signal.Body sig))))
    (pre ++ ActSignal (Some sig) :: post) =
  Some (JobRemoved.result (Store (Signal.Body sig)), None).
Proof.
  intros Hwf%wf_reachable Hname Hpre Hpost [[w4 sent] Hrun].
  set (p := JobRemoved.job (Store (Signal.Body sig))) in *.
  set (r := JobRemoved.result (Store (Signal.Body sig))).
  unfold runJob. rewrite startJob_CallOk.
  pose proof (waiting_startJob w p Hwf) as Hw1.
  set (w1 := (startJob w (CallOk p)).1) in *.
  cbv iota beta. rewrite Hrun.
  rewrite run_app in Hrun.
  destruct (run w1 pre) as [[w2 t2]|] eqn:Hr1; [|discriminate].
  pose proof (waiting_run _ _ _ _ _ _ _ Hw1 Hpre Hr1) as Hw2.
  destruct (run w2 (ActSignal (Some sig) :: post)) as [[w4' t4]|] eqn:Hr2;
    [|discriminate].
  injection Hrun as -> _.
  apply run_cons_Some in Hr2 as (w3 & t3 & t5 & Hs & Hr3 & _).
  assert (waiting p (next_chan w) [r] w3) as Hw3.
  { destruct Hw2 as [Hwf2 Hj2 Hc2]. simpl in Hs. unfold listener in Hs.
    rewrite decide_True in Hs by done. cbv zeta in Hs.
    fold p in Hs. rewrite Hj2 in Hs. unfold chan_send in Hs.
    rewrite Hc2 in Hs. simpl in Hs. injection Hs as <- _.
    split; simpl; [|done|by rewrite lookup_insert_eq].
    eapply (wf_chan_send w2 (next_chan w) r); [done|].
    unfold chan_send. by rewrite Hc2. }
  pose proof (waiting_run _ _ _ _ _ _ _ Hw3 Hpost Hr3) as [_ _ Hc4].
  unfold chan_recv. by rewrite Hc4.
Qed.

Lemma runJob_result_interleaved_witness :
  runJob one_job (CallOk job2)
    ([ActStartJob (CallErr "busy"); ActSignal (Some job1_done)] ++
     ActSignal (Some job2_done) :: [ActRecv 0]) =
  Some ("done", None).
Proof.
  apply (runJob_result_interleaved one_job job2_done
           [ActStartJob (CallErr "busy"); ActSignal (Some job1_done)]
           [ActRecv 0]).
  - exists [ActStartJob (CallOk job1)], []. vm_compute. reflexivity.
  - reflexivity.
  - repeat constructor; vm_compute; discriminate.
  - repeat constructor; vm_compute; discriminate.
  - eexists. vm_compute. reflexivity.
Defined.

Lemma silent_step p c w a w' sent :
  silent p c w → removed_path a ≠ Some p → step w a = Some (w', sent) →
  silent p c w'.
Proof.
  intros [Hlt Hbuf Hjobs] Hrem Hstep.
  assert (a ≠ ActRecv c) as Hrecv.
  { intros ->. simpl in Hstep.
    destruct (chan_recv w c) as [[v w1]|] eqn:Hr; [|discriminate].
    destruct (chan_recv_Some _ _ _ _ Hr) as (ch & rest & Hch & Hb & _).
    by rewrite (Hbuf _ Hch) in Hb. }
  split.
  - destruct a as [reply|signal|c0]; simpl in Hstep.
    + injection Hstep as <- <-.
      assert (next_chan (startJob w reply).1 = S (next_chan w)) as ->.
      { by destruct reply. }
      lia.
    + destruct (listener w signal) as [w1 s1|] eqn:Hl; [|discriminate].
      injection Hstep as <- <-.
      by destruct (listener_Next _ _ _ _ Hl) as (_ & -> & _).
    + destruct (chan_recv w c0) as [[v w1]|] eqn:Hr; [|discriminate].
      injection Hstep as <- <-.
      by destruct (chan_recv_Some _ _ _ _ Hr) as (ch & rest & _ & _ & ->).
  - rewrite (chans_step_other _ _ _ _ c Hstep); [done..|].
    apply (step_sent_to _ _ _ _ _ Hstep). intros q Hq Hjq.
    apply Hrem. rewrite Hq. f_equal. by apply Hjobs.
  - intros q. rewrite (jobs_step _ _ _ _ q Hstep).
    destruct a as [[q'|err]|signal|c0]; try apply Hjobs.
    case_decide; [|apply Hjobs]. intros [= Heq]. lia.
Qed.

Lemma silent_run p c acts : ∀ w w' sent,
  silent p c w → Forall (λ a, removed_path a ≠ Some p) acts →
  run w acts = Some (w', sent) → silent p c w'.
Proof.
  induction acts as [|a acts IH]; intros w w' sent Hw Hq.
  - by intros [= <- <-].
  - apply Forall_cons in Hq as [Ha Hq].
    intros (w1 & t1 & t2 & Hs & Hr & _)%run_cons_Some.
    eapply IH; [|done|done]. by eapply silent_step.
Qed.

Lemma silent_startJob w p :
  wf w → silent p (next_chan w) (startJob w (CallOk p)).1.
Proof.
  intros Hwf. split; simpl.
  - lia.
  - intros ch. rewrite lookup_insert_eq. by intros [= <-].
  - intros q. rewrite lookup_insert. case_decide; [done|].
    intros Hq%(wf_jobs_lt _ Hwf). lia.
Qed.

(** X6: [runJob] does not return as long as no [JobRemoved] signal with the
    path of its job has come: nothing else that happens, neither signals
    for other paths nor other calls, puts a value into its channel. *)
Theorem runJob_waits_for_own_signal (w : World) (p : ObjectPath)
    (between : list action) :
  reachable w →
  Forall (λ a, removed_path a ≠ Some p) between →
  runJob w (CallOk p) between = None.
Proof.
  intros Hwf%wf_reachable Hquiet.
  unfold runJob. rewrite startJob_CallOk.
  pose proof (silent_startJob w p Hwf) as Hw1.
  set (w1 := (startJob w (CallOk p)).1) in *.
  cbv iota beta.
  destruct (run w1 between) as [[w2 t2]|] eqn:Hr; [|done].
  pose proof (silent_run _ _ _ _ _ _ Hw1 Hquiet Hr) as [_ Hbuf _].
  unfold chan_recv. destruct (chans w2 !! next_chan w) as [ch|]; [|done].
  by rewrite (Hbuf ch).
Qed.

Lemma runJob_waits_for_own_signal_witness :
  runJob one_job (CallOk job2)
    [ActSignal (Some job1_done); ActSignal (Some unitNew);
     ActStartJob (CallOk job1)] = None.
Proof.
  apply (runJob_waits_for_own_signal one_job job2).
  - exists [ActStartJob (CallOk job1)], []. vm_compute. reflexivity.
  - repeat constructor; vm_compute; discriminate.
Defined.

(** ** Further properties of the poller *)

Lemma make_cur_fold units : ∀ (acc : gmap string UnitStatus) n,
  fold_left (λ cur u, <[Name u := u]> cur) units acc !! n =
  match last (filter (λ u, Name u = n) units) with
  | Some u => Some u
  | None => acc !! n
  end.
Proof.
  induction units as [|u units IH]; intros acc n; [done|].
  simpl. rewrite IH. destruct (decide (Name u = n)) as [Hn|Hn].
  - rewrite filter_cons_True by done. rewrite last_cons.
    destruct (last (filter _ units)); [done|].
    rewrite <- Hn. apply lookup_insert_eq.
  - rewrite filter_cons_False by done.
    destruct (last (filter _ units)); [done|].
    by apply lookup_insert_ne.
Qed.

(** X7: the snapshot that a cycle builds from the fetched units holds, for
    each name, the last unit of the list with that name: when [ListUnits]
    returns two units with one name, the later one stands for both.  Every
    entry is filed under the name of its own record. *)
Theorem make_cur_lookup (units : list UnitStatus) (n : string) :
  make_cur units !! n = last (filter (λ u, Name u = n) units) ∧
  (∀ u, make_cur units !! n = Some u → Name u = n ∧ u ∈ units) ∧
  (is_Some (make_cur units !! n) ↔ ∃ u, u ∈ units ∧ Name u = n).
Proof.
  assert (make_cur units !! n = last (filter (λ u, Name u = n) units)) as Hl.
  { unfold make_cur. rewrite make_cur_fold, lookup_empty.
    by destruct (last _). }
  split; [done|]. rewrite Hl. split.
  - intros u Hu%last_Some_elem_of. apply list_elem_of_filter in Hu. tauto.
  - split.
    + intros [u Hu%last_Some_elem_of]. apply list_elem_of_filter in Hu.
      exists u. tauto.
    + intros (u & Hu & Hn).
      destruct (last (filter (λ u, Name u = n) units)) as [x|] eqn:E; [eauto|].
      apply last_None in E.
      assert (u ∈ filter (λ u, Name u = n) units) as Hin.
      { by apply list_elem_of_filter. }
      rewrite E in Hin. by apply elem_of_nil in Hin.
Qed.

Lemma make_cur_lookup_witness :
  "a.service" = "a.service" ∧ unitA2 ∈ [unitA1; unitB; unitA2].
Proof.
  apply (proj1 (proj2 (make_cur_lookup [unitA1; unitB; unitA2] "a.service"))
           unitA2).
  vm_compute. reflexivity.
Defined.

(** X8: the order in which Go visits the two maps does not matter: for any
    enumeration of [cur] in the first loop and any enumeration of what is
    left of [old] in the second, the map [changed] is the same. *)
Theorem changed_any_order (isChanged : UnitStatus → UnitStatus → bool)
    (old cur : gmap string UnitStatus)
    (order_cur : list (string * UnitStatus)) (order_old : list string) :
  order_cur ≡ₚ map_to_list cur →
  order_old ≡ₚ (map_to_list (range_cur isChanged order_cur old ∅).1).*1 →
  changed_in isChanged order_cur order_old old =
  changed_units isChanged old cur.
Proof.
  intros Hcur Hold. apply changed_in_order; [done|].
  intros k. rewrite Hold. apply elem_of_fst_map_to_list.
Qed.

Lemma changed_any_order_witness :
  changed_in SubscribeUnits_isChanged
    (reverse (map_to_list (make_cur [unitA2; unitC])))
    (map_to_list
       (range_cur SubscribeUnits_isChanged
          (reverse (map_to_list (make_cur [unitA2; unitC])))
          (make_cur [unitA1; unitB]) ∅).1).*1
    (make_cur [unitA1; unitB]) =
  changed_units SubscribeUnits_isChanged
    (make_cur [unitA1; unitB]) (make_cur [unitA2; unitC]).
Proof.
  apply (changed_any_order SubscribeUnits_isChanged).
  - apply reverse_Permutation.
  - reflexivity.
Defined.

(** X9: with the comparison of [SubscribeUnits], a cycle sends the empty
    map exactly when the fetched snapshot is the one it retained. *)
Theorem SubscribeUnits_empty_iff_same (old cur : gmap string UnitStatus) :
  changed_units SubscribeUnits_isChanged old cur = ∅ ↔ old = cur.
Proof.
  split.
  - intros Hempty. apply map_eq. intros n.
    assert (changed_units SubscribeUnits_isChanged old cur !! n = None) as Hn.
    { by rewrite Hempty, lookup_empty. }
    rewrite changed_units_lookup in Hn. unfold delta_entry in Hn.
    destruct (cur !! n) as [u|], (old !! n) as [oldU|]; try done.
    unfold SubscribeUnits_isChanged in Hn.
    destruct (decide (oldU = u)) as [->|Hne]; [done|].
    by rewrite bool_decide_eq_true_2 in Hn.
  - intros ->. apply changed_units_same, SubscribeUnits_isChanged_same.
Qed.

Lemma apply_delta_lookup view changed n :
  apply_delta view changed !! n = apply_entry (view !! n) (changed !! n).
Proof.
  unfold apply_delta. rewrite lookup_merge.
  by destruct (view !! n), (changed !! n).
Qed.

Lemma apply_delta_changed_units isChanged (old cur : gmap string UnitStatus) n :
  apply_delta old (changed_units isChanged old cur) !! n =
  match cur !! n, old !! n with
  | Some u, Some oldU => if isChanged oldU u then Some u else Some oldU
  | Some u, None => Some u
  | None, _ => None
  end.
Proof.
  rewrite apply_delta_lookup, changed_units_lookup. unfold delta_entry.
  destruct (cur !! n) as [u|], (old !! n) as [oldU|]; try done.
  simpl. by destruct (isChanged oldU u).
Qed.

Lemma apply_delta_SubscribeUnits (old cur : gmap string UnitStatus) :
  apply_delta old (changed_units SubscribeUnits_isChanged old cur) = cur.
Proof.
  apply map_eq. intros n. rewrite apply_delta_changed_units.
  destruct (cur !! n) as [u|], (old !! n) as [oldU|]; try done.
  unfold SubscribeUnits_isChanged. case_bool_decide as H; [done|].
  f_equal. by destruct (decide (oldU = u)).
Qed.

(** X10: the map a cycle sends is enough to follow the units.  A consumer
    who holds the retained snapshot and applies the map, taking a record as
    the new entry and nil as a removal, holds the units of the fetched
    snapshot, each with its fetched record or, where the comparison found no
    change, with the retained one; with the comparison of [SubscribeUnits]
    that is exactly the fetched snapshot. *)
Theorem apply_delta_gives_current (isChanged : UnitStatus → UnitStatus → bool)
    (old cur : gmap string UnitStatus) :
  (∀ n, apply_delta old (changed_units isChanged old cur) !! n =
        match cur !! n, old !! n with
        | Some u, Some oldU => if isChanged oldU u then Some u else Some oldU
        | Some u, None => Some u
        | None, _ => None
        end) ∧
  dom (apply_delta old (changed_units isChanged old cur)) = dom cur ∧
  apply_delta old (changed_units SubscribeUnits_isChanged old cur) = cur.
Proof.
  split; [apply apply_delta_changed_units|].
  split; [|apply apply_delta_SubscribeUnits].
  apply set_eq. intros n. rewrite !elem_of_dom, apply_delta_changed_units.
  destruct (cur !! n) as [u|], (old !! n) as [oldU|];
    try destruct (isChanged oldU u); split; intros [x Hx]; try done; eauto.
Qed.

Lemma poll_cons isChanged fetched fetches st :
  poll isChanged (fetched :: fetches) st =
  poll isChanged fetches (poll_cycle isChanged fetched st).
Proof. reflexivity. Qed.

Lemma poll_outputs (isChanged : UnitStatus → UnitStatus → bool)
    (fetches : list (list UnitStatus + Error)) (st : Poller) :
  errChan (poll isChanged fetches st) =
    errChan st ++ omap fetch_error fetches ∧
  length (statusChan (poll isChanged fetches st)) =
    length (statusChan st) + length (omap fetched_units fetches) ∧
  old (poll isChanged fetches st) =
    match last (omap fetched_units fetches) with
    | Some units => make_cur units
    | None => old st
    end.
Proof.
  revert st. induction fetches as [|fetched fetches IH]; intros st.
  - simpl. rewrite app_nil_r. repeat split. lia.
  - rewrite poll_cons. destruct (IH (poll_cycle isChanged fetched st))
      as (He & Hs & Ho).
    rewrite He, Hs, Ho. destruct fetched as [units|err]; simpl.
    + split; [done|]. split.
      { rewrite length_app. simpl.
        change (list_omap _ _ fetched_units fetches)
          with (omap fetched_units fetches). lia. }
      rewrite last_cons. by destruct (last _).
    + split; [by rewrite <- app_assoc|]. done.
Qed.

(** X11: after any number of cycles, the error channel has received the
    errors of the failed fetches, in order, and nothing else; the status
    channel has received one map for each successful fetch; and [old] is
    the snapshot of the last successful fetch, or still the first one when
    every fetch failed. *)
Theorem poll_streams (isChanged : UnitStatus → UnitStatus → bool)
    (fetches : list (list UnitStatus + Error)) (st : Poller) :
  errChan (poll isChanged fetches st) =
    errChan st ++ omap fetch_error fetches ∧
  length (statusChan (poll isChanged fetches st)) =
    length (statusChan st) + length (omap fetched_units fetches) ∧
  old (poll isChanged fetches st) =
    match last (omap fetched_units fetches) with
    | Some units => make_cur units
    | None => old st
    end.
Proof.
  destruct (poll_outputs isChanged fetches st) as (He & Hs & Ho).
  split; [exact He|]. split; [exact Hs|exact Ho].
Qed.

Lemma poll_replay fetches : ∀ st,
  ∃ deltas,
    statusChan (poll SubscribeUnits_isChanged fetches st) =
      statusChan st ++ deltas ∧
    fold_left apply_delta deltas (old st) =
      old (poll SubscribeUnits_isChanged fetches st).
Proof.
  induction fetches as [|fetched fetches IH]; intros st.
  - exists []. by rewrite app_nil_r.
  - rewrite poll_cons.
    destruct (IH (poll_cycle SubscribeUnits_isChanged fetched st))
      as (deltas & Hs & Ho).
    destruct fetched as [units|err]; simpl in *.
    + exists (changed_units SubscribeUnits_isChanged (old st) (make_cur units)
              :: deltas).
      split; [by rewrite Hs, <- app_assoc|].
      simpl. by rewrite apply_delta_SubscribeUnits.
    + by exists deltas.
Qed.

(** X12: a consumer of [SubscribeUnits] who starts from no units and
    applies every map it receives holds, after each cycle, the snapshot of
    the last successful fetch; failed fetches in between do not disturb
    it. *)
Theorem SubscribeUnits_replay (fetches : list (list UnitStatus + Error)) :
  fold_left apply_delta
    (statusChan (poll SubscribeUnits_isChanged fetches SubscribeUnitsCustom)) ∅ =
  old (poll SubscribeUnits_isChanged fetches SubscribeUnitsCustom) ∧
  old (poll SubscribeUnits_isChanged fetches SubscribeUnitsCustom) =
    match last (omap fetched_units fetches) with
    | Some units => make_cur units
    | None => ∅
    end.
Proof.
  split.
  - destruct (poll_replay fetches SubscribeUnitsCustom) as (deltas & Hs & Ho).
    simpl in Hs. by rewrite Hs.
  - apply poll_outputs.
Qed.

(** X13: the first successful cycle reports every fetched unit with its
    record, whatever the comparison function; and a cycle that fetches no
    units reports every retained unit as nil. *)
Theorem first_cycle_reports_all (isChanged : UnitStatus → UnitStatus → bool)
    (units : list UnitStatus) (st : Poller) :
  statusChan (poll_cycle isChanged (inl units) SubscribeUnitsCustom) =
    [Some <$> make_cur units] ∧
  statusChan (poll_cycle isChanged (inl []) st) =
    statusChan st ++ [(λ _, None) <$> old st].
Proof.
  split; simpl; repeat f_equal; apply map_eq; intros n;
    rewrite lookup_fmap.
  - apply changed_units_from_empty.
  - apply (changed_units_to_empty isChanged (old st) n).
Qed.

(** ** [ListUnits] and [init] *)

Lemma store_UnitStatus_row u : store_UnitStatus (UnitStatus_row u) = Some u.
Proof. by destruct u. Qed.

(** X14: [ListUnits] returns all units or none.  It returns units exactly
    when the call succeeded and every row of the reply fits [UnitStatus];
    then there is one record for each row, in the order of the rows.  One
    row that does not fit makes the whole call fail, and a polling cycle
    that gets this failure sends the error and keeps its snapshot. *)
Theorem ListUnits_all_or_nothing (Store_error : Error)
    (reply : list (list Variant) + Error) :
  (∀ status, ListUnits Store_error reply = inl status ↔
     ∃ result, reply = inl result ∧
       Forall2 (λ row u, store_UnitStatus row = Some u) result status) ∧
  (∀ status result, ListUnits Store_error reply = inl status →
     reply = inl result → length status = length result) ∧
  (∀ result isChanged st,
     reply = inl result →
     Exists (λ row, store_UnitStatus row = None) result →
     ListUnits Store_error reply = inr Store_error ∧
     poll_cycle isChanged (ListUnits Store_error reply) st =
       {| old := old st; statusChan := statusChan st;
          errChan := errChan st ++ [Store_error] |}).
Proof.
  split; [|split].
  - intros status. unfold ListUnits. destruct reply as [result|err].
    + destruct (mapM store_UnitStatus result) as [status'|] eqn:Hm.
      * apply mapM_Some in Hm. split.
        -- intros [= <-]. eauto.
        -- intros (result' & [= <-] & H2). f_equal.
           apply mapM_Some in H2. apply mapM_Some in Hm. congruence.
      * split; [done|]. intros (result' & [= <-] & H2%mapM_Some). congruence.
    + split; [done|]. by intros (result & ? & _).
  - intros status result Hl ->. unfold ListUnits in Hl.
    destruct (mapM store_UnitStatus result) as [status'|] eqn:Hm; [|done].
    injection Hl as <-. symmetry. by eapply length_mapM.
  - intros result isChanged st -> Hbad.
    assert (mapM store_UnitStatus result = None) as Hm.
    { by apply mapM_None. }
    unfold ListUnits. by rewrite Hm.
Qed.

Lemma ListUnits_all_or_nothing_witness :
  ListUnits "dbus.Store: type mismatch"
    (inl [UnitStatus_row unitA1; [VString "b.service"]]) =
    inr "dbus.Store: type mismatch" ∧
  poll_cycle SubscribeUnits_isChanged
    (ListUnits "dbus.Store: type mismatch"
       (inl [UnitStatus_row unitA1; [VString "b.service"]]))
    SubscribeUnitsCustom =
    {| old := ∅; statusChan := [];
       errChan := [] ++ ["dbus.Store: type mismatch"] |}.
Proof.
  apply (proj2 (proj2 (ListUnits_all_or_nothing "dbus.Store: type mismatch"
           (inl [UnitStatus_row unitA1; [VString "b.service"]])))
           [UnitStatus_row unitA1; [VString "b.service"]]
           SubscribeUnits_isChanged SubscribeUnitsCustom).
  - reflexivity.
  - apply Exists_cons_tl, Exists_cons_hd. reflexivity.
Defined.

(** X15: a reply whose rows carry the ten fields of [UnitStatus], in the
    order and with the types of the declaration, comes back from
    [ListUnits] as exactly these records, in the same order. *)
Theorem ListUnits_rows (Store_error : Error) (units : list UnitStatus) :
  ListUnits Store_error (inl (UnitStatus_row <$> units)) = inl units.
Proof.
  unfold ListUnits.
  assert (mapM store_UnitStatus (UnitStatus_row <$> units) = Some units) as ->;
    [|done].
  apply mapM_Some. induction units as [|u units IH]; [constructor|].
  rewrite fmap_cons. constructor; [apply store_UnitStatus_row|done].
Qed.

(** X16: after [init] the correlator runs exactly when the connection is
    open, and that is exactly when [SystemBusPrivate], [Auth], [Hello] and
    [Subscribe] all succeeded; what [AddMatch] returned makes no
    difference.  A connection that was made and not kept is closed. *)
Theorem init_outcomes (calls : InitCalls) :
  (correlator (init calls) = Some initSubscriber ↔
   SystemBusPrivate calls = None ∧ Auth calls = None ∧
   Hello calls = None ∧ Subscribe calls = None) ∧
  (is_Some (correlator (init calls)) ↔ sysconn (init calls) = Some ConnOpen) ∧
  (sysconn (init calls) = Some ConnClosed ↔
   SystemBusPrivate calls = None ∧
   (is_Some (Auth calls) ∨ is_Some (Hello calls) ∨ is_Some (Subscribe calls))) ∧
  (∀ e, init {| SystemBusPrivate := SystemBusPrivate calls;
                Auth := Auth calls; Hello := Hello calls;
                AddMatch := e; Subscribe := Subscribe calls |} = init calls).
Proof.
  destruct calls as [[e1|] [e2|] [e3|] e4 [e5|]]; unfold init; simpl;
    repeat split; try done; try (intros [x Hx]; done);
    try (intros (? & ? & ? & ?); done);
    try (intros [? [[x Hx]|[[x Hx]|[x Hx]]]]; done); eauto.
Qed.
